(** * The used-paddle offer service: a shallow embedding of [server.js]

    The repository holds three revisions of one Express server:

    - [src/server.js]: single fetch, no alias table, substring phase that
      keeps the candidate with the longest overlap, failures of the scrape
      always rethrown;
    - [src/unnamed/part_000] and [src/unnamed/part_001]: [fetchWithRetry],
      an alias table in [bestMatch], a substring phase that returns the first
      containment match, and a stale-cache fallback in the [catch] of
      [scrapeUsedPaddles].  The two files differ in the source page, in
      the selectors given to cheerio with the test that keeps an element,
      and in log texts; [fetchWithRetry], the cache test, the [catch] and
      [bestMatch] are the same text in both.  The extraction modelled is
      that of [server.js] and [part_001].

    [normalize], [priceParse], the deduplication loop, the cache test and the
    [/offer] handler are the same text in all three.  They are embedded once;
    the functions that differ live in [Module ServerJs] and
    [Module RetryRev].

    Data.  A JavaScript string is a sequence of UTF-16 code units; the model
    keeps the code units below 256 (Latin-1), which is what [ascii]
    enumerates, so [length] is [String.prototype.length].  A JavaScript
    number is an IEEE 754 binary64 value, modelled by [spec_float] with
    [prec = 53] and [emax = 1024]; [Date.now()] and HTTP statuses are
    integers and are kept in [Z]. *)

From Stdlib Require Import List Bool Arith ZArith Lia Ascii.
From Stdlib Require String.
From Stdlib Require Import Floats.SpecFloat.
Import ListNotations.
Import String.StringSyntax.

Set Implicit Arguments.

(** ** Strings *)

Definition jsstring := list ascii.

Definition lit (s : String.string) : jsstring := String.list_ascii_of_string s.
Arguments lit s%_string_scope.

Definition code (c : ascii) : nat := nat_of_ascii c.

(** [\s] of a regular expression and the characters removed by [trim]:
    TAB, LF, VT, FF, CR, SPACE and NBSP are the ones below 256. *)
Definition isWhite (c : ascii) : bool :=
  let n := code c in
  ((9 <=? n) && (n <=? 13)) || (n =? 32) || (n =? 160).

(** [\d]: the ASCII digits. *)
Definition isDigit (c : ascii) : bool :=
  let n := code c in (48 <=? n) && (n <=? 57).

Definition space : ascii := " "%char.

(** [String.prototype.toLowerCase] on one code unit: A-Z, and the Latin-1
    capitals U+00C0..U+00DE without the multiplication sign U+00D7. *)
Definition toLowerChar (c : ascii) : ascii :=
  let n := code c in
  if ((65 <=? n) && (n <=? 90))
     || ((192 <=? n) && (n <=? 222) && negb (n =? 215))
  then ascii_of_nat (n + 32) else c.

(** On code units below 256 the conversion works unit by unit and keeps the
    length; beyond them it need not (U+0130 becomes two code units), so
    lengths are compared with that of the lower-case form, never with that
    of the input. *)
Definition toLowerCase (s : jsstring) : jsstring := map toLowerChar s.

(** [s.replace(/\s+/g, " ")]: every maximal run of white space becomes one
    space.  [inRun] tells that the previous character was white, i.e. that
    the run has already been replaced. *)
Fixpoint collapseFrom (inRun : bool) (s : jsstring) : jsstring :=
  match s with
  | [] => []
  | c :: r =>
      if isWhite c
      then if inRun then collapseFrom true r else space :: collapseFrom true r
      else c :: collapseFrom false r
  end.

Definition collapseWhite (s : jsstring) : jsstring := collapseFrom false s.

Fixpoint trimStart (s : jsstring) : jsstring :=
  match s with
  | [] => []
  | c :: r => if isWhite c then trimStart r else s
  end.

Fixpoint trimEnd (s : jsstring) : jsstring :=
  match s with
  | [] => []
  | c :: r =>
      match trimEnd r with
      | [] => if isWhite c then [] else [c]
      | r' => c :: r'
      end
  end.

Definition trim (s : jsstring) : jsstring := trimEnd (trimStart s).

(** [function normalize(str = "")]:
    [str.toLowerCase().replace(/\s+/g, " ").trim()]. *)
Definition normalize (s : jsstring) : jsstring :=
  trim (collapseWhite (toLowerCase s)).

(** [String.prototype.includes]. *)
Fixpoint startsWith (s sub : jsstring) : bool :=
  match sub, s with
  | [], _ => true
  | _ :: _, [] => false
  | a :: sub', b :: s' => if ascii_dec a b then startsWith s' sub' else false
  end.

Fixpoint includes (s sub : jsstring) : bool :=
  startsWith s sub ||
  match s with
  | [] => false
  | _ :: s' => includes s' sub
  end.

(** ** Listings and the deduplicated catalog *)

(** [{ name: nameText, price: priceText }], as pushed on [items]. *)
Record Listing := mkListing { name : jsstring; price : jsstring }.

Definition jsstring_eq_dec : forall a b : jsstring, {a = b} + {a <> b} :=
  list_eq_dec ascii_dec.

(** A JavaScript [Map] with string keys: entries in insertion order;
    [set] on a key that is present replaces the value where it stands. *)
Definition JsMap (V : Type) := list (jsstring * V).

Fixpoint mapGet {V} (key : jsstring) (m : JsMap V) : option V :=
  match m with
  | [] => None
  | (k, v) :: r => if jsstring_eq_dec k key then Some v else mapGet key r
  end.

Definition mapHas {V} (key : jsstring) (m : JsMap V) : bool :=
  match mapGet key m with Some _ => true | None => false end.

Fixpoint mapSet {V} (key : jsstring) (v : V) (m : JsMap V) : JsMap V :=
  match m with
  | [] => [(key, v)]
  | (k, x) :: r =>
      if jsstring_eq_dec k key then (k, v) :: r else (k, x) :: mapSet key v r
  end.

Definition mapValues {V} (m : JsMap V) : list V := map snd m.

Definition keyOf (it : Listing) : jsstring := normalize (name it).

(** The body of [for (const it of items)] in [scrapeUsedPaddles]:
    [if (!byName.has(key) || it.price.length > byName.get(key).price.length)
       byName.set(key, it);] *)
Definition dedupStep (byName : JsMap Listing) (it : Listing) : JsMap Listing :=
  let key := keyOf it in
  let longer :=
    match mapGet key byName with
    | Some old => length (price old) <? length (price it)
    | None => false
    end in
  if negb (mapHas key byName) || longer then mapSet key it byName else byName.

Definition dedupMap (items : list Listing) : JsMap Listing :=
  fold_left dedupStep items [].

(** [Array.from(byName.values())]. *)
Definition dedupe (items : list Listing) : list Listing :=
  mapValues (dedupMap items).

(** The order in which keys are first seen: a key is appended when it has
    not occurred before. *)
Definition firstSeen (keys : list jsstring) : list jsstring :=
  fold_left
    (fun seen k => if in_dec jsstring_eq_dec k seen then seen else seen ++ [k])
    keys [].

(** ** The matcher *)

(** What [bestMatch] returns: the listing, spread into a new object together
    with [score] (substring phase of [server.js]) or [hits] (token phase);
    the retry revisions return the catalog entry itself from the substring
    phase. *)
Inductive Metric := Score (n : nat) | Hits (n : nat) | Plain.

Record Match := mkMatch { listing : Listing; metric : Metric }.

(** [n.includes(q) || q.includes(n)] for [n = normalize(item.name)]. *)
Definition containsEither (q : jsstring) (item : Listing) : bool :=
  let n := normalize (name item) in includes n q || includes q n.

(** [Math.min(n.length, q.length)]. *)
Definition overlap (q : jsstring) (item : Listing) : nat :=
  Nat.min (length (normalize (name item))) (length q).

(** [q.split(" ")]. *)
Fixpoint splitSpace (s : jsstring) : list jsstring :=
  match s with
  | [] => [[]]
  | c :: r =>
      if ascii_dec c space then [] :: splitSpace r
      else match splitSpace r with
           | cur :: rest => (c :: cur) :: rest
           | [] => [[c]]
           end
  end.

(** [.filter(Boolean)] on strings: the empty string is the falsy one. *)
Definition truthy (s : jsstring) : bool :=
  match s with [] => false | _ => true end.

Definition tokens (q : jsstring) : list jsstring := filter truthy (splitSpace q).

(** [qTokens.filter(t => n.includes(t)).length]. *)
Definition hitCount (qTokens : list jsstring) (item : Listing) : nat :=
  let n := normalize (name item) in
  length (filter (fun t => includes n t) qTokens).

(** ** The server's state and its effects *)

(** [let CACHE = { data: null, fetchedAt: 0, ttlMs: 5 * 60 * 1000 }].
    [data] is [null] or an array; an array is truthy even when empty. *)
Record Cache := mkCache
  { data : option (list Listing); fetchedAt : Z; ttlMs : Z }.

Definition initialCache : Cache := mkCache None 0 (5 * 60 * 1000)%Z.

(** An element selected by the product selector, as the inner selectors see
    it: the text of the first title-like element, the [title] attribute of
    the first link ([undefined] when absent), the text of the first link and
    the text of the first price-like element.  What cheerio computes from the
    markup is outside the model. *)
Record Candidate := mkCandidate
  { titleText : jsstring; linkTitle : option jsstring;
    linkText : jsstring; priceRaw : jsstring }.

Record HttpResponse := mkResponse { status : Z; body : list Candidate }.

(** [res.ok]. *)
Definition ok (res : HttpResponse) : bool :=
  ((200 <=? status res) && (status res <=? 299))%Z.

(** What one call of [fetch] meets: a response, or a rejection. *)
Inductive FetchOutcome :=
| Responds (res : HttpResponse)
| NetworkError (message : jsstring).

(** The errors thrown: [new Error(`Fetch failed (${res.status})`)] in
    [server.js]; [new Error(`HTTP ${res.status}`)] in [fetchWithRetry];
    [new Error(`HTTP ${res.status}: Failed to fetch page`)] in the retry
    revisions' scrape; the rejection of [fetch]; the [TypeError] of calling
    [text] on [undefined]. *)
Inductive JsError :=
| ErrFetchFailed (status : Z)
| ErrHttp (status : Z)
| ErrHttpPage (status : Z)
| ErrNetwork (message : jsstring)
| ErrType.

(** What can be observed of a run: calls of [fetch] and timer waits.
    Console output is left out. *)
Inductive Event := EvFetch | EvWait (ms : Z).

(** [upstream n] is what the [n]-th call of [fetch] meets. *)
Record World := mkWorld
  { CACHE : Cache; clock : Z; upstream : nat -> FetchOutcome;
    fetches : nat; trace : list Event }.

Inductive Result (A : Type) := Ok (a : A) | Throw (e : JsError).
Arguments Ok {A} a.
Arguments Throw {A} e.

Definition M (A : Type) := World -> Result A * World.

Definition ret {A} (a : A) : M A := fun w => (Ok a, w).

Definition throw {A} (e : JsError) : M A := fun w => (Throw e, w).

Definition bind {A B} (m : M A) (k : A -> M B) : M B :=
  fun w => match m w with
           | (Ok a, w') => k a w'
           | (Throw e, w') => (Throw e, w')
           end.

Definition tryCatch {A} (m : M A) (handler : JsError -> M A) : M A :=
  fun w => match m w with
           | (Ok a, w') => (Ok a, w')
           | (Throw e, w') => handler e w'
           end.

Notation "x <- m ;; k" := (bind m (fun x => k))
  (at level 61, m at next level, right associativity).
Notation "m ;;; k" := (bind m (fun _ => k))
  (at level 61, right associativity).

Definition dateNow : M Z := fun w => (Ok (clock w), w).

Definition getCache : M Cache := fun w => (Ok (CACHE w), w).

Definition setCache (c : Cache) : M unit :=
  fun w => (Ok tt, mkWorld c (clock w) (upstream w) (fetches w) (trace w)).

(** [await fetch(SOURCE_URL, ...)].  The time that a call takes is not
    modelled: [clock] moves only in [wait], so what is stated of the clock
    is stated of the timer waits. *)
Definition fetch : M HttpResponse :=
  fun w =>
    let w' := mkWorld (CACHE w) (clock w) (upstream w) (S (fetches w))
                (trace w ++ [EvFetch]) in
    match upstream w (fetches w) with
    | Responds res => (Ok res, w')
    | NetworkError msg => (Throw (ErrNetwork msg), w')
    end.

(** [await new Promise(r => setTimeout(r, ms))]. *)
Definition wait (ms : Z) : M unit :=
  fun w => (Ok tt, mkWorld (CACHE w) (clock w + ms)%Z (upstream w) (fetches w)
                     (trace w ++ [EvWait ms])).

(** ** Extraction of the listings *)

(** [/\$[\d]/.test(priceText)]. *)
Fixpoint hasDollarDigit (s : jsstring) : bool :=
  match s with
  | c :: r =>
      match r with
      | d :: _ =>
          ((if ascii_dec c "$"%char then true else false) && isDigit d)
          || hasDollarDigit r
      | [] => false
      end
  | [] => false
  end.

(** [a.trim() || title || b.trim()]; [undefined] and the empty string are
    both falsy and both rejected below, so they are merged. *)
Definition nameTextOf (el : Candidate) : jsstring :=
  if truthy (trim (titleText el)) then trim (titleText el)
  else match linkTitle el with
       | Some t => if truthy t then t else trim (linkText el)
       | None => trim (linkText el)
       end.

Definition priceTextOf (el : Candidate) : jsstring :=
  trim (collapseWhite (priceRaw el)).

(** The body of [.each]: [if (nameText && /\$[\d]/.test(priceText))
    items.push({ name: nameText, price: priceText })]. *)
Definition extractItems (els : list Candidate) : list Listing :=
  flat_map
    (fun el =>
       if truthy (nameTextOf el) && hasDollarDigit (priceTextOf el)
       then [mkListing (nameTextOf el) (priceTextOf el)] else [])
    els.

(** [CACHE.data && now - CACHE.fetchedAt < CACHE.ttlMs]. *)
Definition cacheFresh (c : Cache) (now : Z) : bool :=
  match data c with
  | Some _ => (now - fetchedAt c <? ttlMs c)%Z
  | None => false
  end.

(** The end of the [try] block, the same in all revisions: deduplicate,
    replace [CACHE], return the new catalog. *)
Definition storeCatalog (now : Z) (items : list Listing) : M (list Listing) :=
  let d := dedupe items in
  c <- getCache ;;
  setCache (mkCache (Some d) now (ttlMs c)) ;;;
  ret d.

(** ** Numbers and the price parser *)

(** A JavaScript number: IEEE 754 binary64. *)
Definition number := spec_float.

Definition prec : Z := 53.
Definition emax : Z := 1024.

Definition numAdd : number -> number -> number := SFadd prec emax.
Definition numMul : number -> number -> number := SFmul prec emax.
Definition numDiv : number -> number -> number := SFdiv prec emax.
Definition numLt : number -> number -> bool := SFltb.
Definition numLe : number -> number -> bool := SFleb.

(** An integer literal. *)
Definition ofInt (n : Z) : number := binary_normalize prec emax n 0 false.

(** The literals of the source: [2], [100], [0.5] and [Number.EPSILON]
    (2 to the power -52). *)
Definition two : number := ofInt 2.
Definition hundred : number := ofInt 100.
Definition half : number := SFldexp prec emax (ofInt 1) (-1).
Definition EPSILON : number := SFldexp prec emax (ofInt 1) (-52).

(** The double nearest to [n / d] (ties to even) for [0 <= n], [0 < d]:
    one correctly rounded division of the two integers. *)
Definition nearestRatio (n : Z) (d : positive) : number :=
  match n with
  | Zpos p => SFdiv prec emax (S754_finite false p 0) (S754_finite false d 0)
  | _ => S754_zero false
  end.

(** The greedy [[\d]+] at the head of [s]: the longest run of digits and
    what follows it. *)
Fixpoint spanDigits (s : jsstring) : jsstring * jsstring :=
  match s with
  | c :: r =>
      if isDigit c
      then let (ds, rest) := spanDigits r in (c :: ds, rest)
      else ([], s)
  | [] => ([], [])
  end.

Definition isDot (c : ascii) : bool :=
  if ascii_dec c "."%char then true else false.

(** [/[\d]+\.\d{2}/] tried at the head of [s].  Giving back digits of the
    greedy run cannot help: the character after a shorter run is a digit,
    not the point. *)
Definition matchAt (s : jsstring) : option jsstring :=
  match spanDigits s with
  | ([], _) => None
  | (ds, dot :: a :: b :: _) =>
      if isDot dot && isDigit a && isDigit b
      then Some (ds ++ [dot; a; b]) else None
  | _ => None
  end.

(** The scan of a global match: a match is looked for at every index from
    the left; after a match the scan resumes behind it, so the [skip]
    characters that belong to the last match start no match. *)
Fixpoint scanFrom (skip : nat) (s : jsstring) : list jsstring :=
  match s with
  | [] => []
  | _ :: r =>
      match skip with
      | S k => scanFrom k r
      | O =>
          match matchAt s with
          | Some m => m :: scanFrom (length m - 1) r
          | None => scanFrom 0 r
          end
      end
  end.

(** [priceText.match(/[\d]+\.\d{2}/g) || []]. *)
Definition matchAll (priceText : jsstring) : list jsstring :=
  scanFrom 0 priceText.

(** The number of cents that a match [d+.dd] writes: its digits read in
    base ten, the point skipped. *)
Definition centsOf (m : jsstring) : Z :=
  fold_left
    (fun acc c => if isDigit c then (10 * acc + Z.of_nat (code c - 48))%Z else acc)
    m 0%Z.

(** [parseFloat] on a match of the expression: the double nearest to the
    decimal it writes. *)
Definition parseFloat (m : jsstring) : number := nearestRatio (centsOf m) 100.

Definition isNaN (x : number) : bool :=
  match x with S754_nan => true | _ => false end.

Definition isZero (negative : bool) (x : number) : bool :=
  match x with S754_zero s => Bool.eqb s negative | _ => false end.

(** One argument of [Math.min] against the least so far: [-0] is below
    [+0]. *)
Definition minStep (lowest n : number) : number :=
  if (isZero true n && isZero false lowest) || numLt n lowest
  then n else lowest.

(** One argument of [Math.max] against the greatest so far. *)
Definition maxStep (highest n : number) : number :=
  if (isZero false n && isZero true highest) || numLt highest n
  then n else highest.

(** [Math.min(...nums)]: [NaN] if any argument is; otherwise the least,
    starting from [+Infinity]. *)
Definition mathMin (nums : list number) : number :=
  if existsb isNaN nums then S754_nan
  else fold_left minStep nums (S754_infinity false).

(** [Math.max(...nums)], starting from [-Infinity]. *)
Definition mathMax (nums : list number) : number :=
  if existsb isNaN nums then S754_nan
  else fold_left maxStep nums (S754_infinity true).

Record ParsedPrice := mkParsed { lo : number; hi : number; mid : number }.

(** [function priceParse(priceText)]. *)
Definition priceParse (priceText : jsstring) : option ParsedPrice :=
  let nums := map parseFloat (matchAll priceText) in
  match nums with
  | [] => None
  | _ =>
      let lo := mathMin nums in
      let hi := mathMax nums in
      Some (mkParsed lo hi (numDiv (numAdd lo hi) two))
  end.

(** [Math.round]: [NaN], the infinities, the zeros and the integers are
    returned as they are; otherwise the integer [floor(x + 1/2)], exact, with
    the sign of [x] when it is zero.  For [x = M * 2^e] with [e < 0] this is
    [floor((2 M + 2^-e) / 2^(1-e))]. *)
Definition mathRound (x : number) : number :=
  match x with
  | S754_finite s m e =>
      if (0 <=? e)%Z then x
      else
        let M := if s then Zneg m else Zpos m in
        let n := Z.shiftr (2 * M + Z.shiftl 1 (- e)) (1 - e) in
        binary_normalize prec emax n 0 s
  | _ => x
  end.

(** [Math.round((parsed.mid * 0.5 + Number.EPSILON) * 100) / 100]. *)
Definition fixedOffer (mid : number) : number :=
  numDiv (mathRound (numMul (numAdd (numMul mid half) EPSILON) hundred)) hundred.

(** ** The [/offer] handler *)

(** [const { model, condition, notes } = req.body || {}]: a field is absent
    or a string.  Fields of another JSON type (a number, a boolean, an
    object) are outside the model: what is stated of a request is stated of
    requests with string fields. *)
Record Request := mkRequest
  { model : option jsstring; condition : option jsstring;
    notes : option jsstring }.

(** Truthiness of a field: present and not the empty string. *)
Definition present (field : option jsstring) : bool :=
  match field with Some s => truthy s | None => false end.

(** [notes || ""]. *)
Definition orEmpty (field : option jsstring) : jsstring :=
  match field with Some s => s | None => [] end.

(** [echo: { submittedModel: model, condition, notes: notes || "" }]. *)
Record Echo := mkEcho
  { submittedModel : jsstring; echoCondition : jsstring; echoNotes : jsstring }.

(** The responses of the handler: status 400; status 200 with
    [found: false, offer: null]; status 200 with [found: true, offer: null];
    status 200 with the offer, the matched price text and name (the
    [referenceMidpoint], a decimal rendering of [mid], is left out); status
    500. *)
Inductive Response :=
| BadRequest
| NotFound (echo : Echo)
| PriceUnavailable (echo : Echo)
| Offered (offer : number) (referencePrice matched : jsstring) (echo : Echo)
| Failed.

Section Handler.

Variable scrapeUsedPaddles : M (list Listing).
Variable bestMatch : jsstring -> list Listing -> option Match.

(** [app.post("/offer", async (req, res) => { try { ... } catch (err) {
    res.status(500)... } })]. *)
Definition offerHandler (req : Request) : World -> Response * World :=
  fun w =>
    if negb (present (model req)) || negb (present (condition req))
    then (BadRequest, w)
    else
      let echo := mkEcho (orEmpty (model req)) (orEmpty (condition req))
                    (orEmpty (notes req)) in
      match scrapeUsedPaddles w with
      | (Throw _, w') => (Failed, w')
      | (Ok dataset, w') =>
          match bestMatch (orEmpty (model req)) dataset with
          | None => (NotFound echo, w')
          | Some found =>
              match priceParse (price (listing found)) with
              | None => (PriceUnavailable echo, w')
              | Some parsed =>
                  (Offered (fixedOffer (mid parsed)) (price (listing found))
                     (name (listing found)) echo, w')
              end
          end
      end.

End Handler.

(** ** The revision [server.js] *)

Module ServerJs.

(** One turn of the first loop of [bestMatch] in [server.js]. *)
Definition substringStep (q : jsstring) (candidate : option (Listing * nat))
    (item : Listing) : option (Listing * nat) :=
  if containsEither q item then
    let score := overlap q item in
    match candidate with
    | None => Some (item, score)
    | Some (_, cscore) =>
        if cscore <? score then Some (item, score) else candidate
    end
  else candidate.

Definition substringPhase (q : jsstring) (dataset : list Listing)
  : option (Listing * nat) :=
  fold_left (substringStep q) dataset None.

(** One turn of the second loop: [hits > 0 && (!alt || hits > alt.hits ||
    (hits === alt.hits && item.name.length > alt.name.length))]. *)
Definition tokenStep (qTokens : list jsstring) (alt : option (Listing * nat))
    (item : Listing) : option (Listing * nat) :=
  let hits := hitCount qTokens item in
  let better :=
    match alt with
    | None => true
    | Some (a, ahits) =>
        (ahits <? hits)
        || ((hits =? ahits) && (length (name a) <? length (name item)))
    end in
  if (0 <? hits) && better then Some (item, hits) else alt.

Definition tokenPhase (q : jsstring) (dataset : list Listing)
  : option (Listing * nat) :=
  fold_left (tokenStep (tokens q)) dataset None.

Definition bestMatch (model : jsstring) (dataset : list Listing)
  : option Match :=
  let q := normalize model in
  if truthy q then
    match substringPhase q dataset with
    | Some (item, score) => Some (mkMatch item (Score score))
    | None =>
        match tokenPhase q dataset with
        | Some (item, hits) => Some (mkMatch item (Hits hits))
        | None => None
        end
    end
  else None.

(** The [try] block of [scrapeUsedPaddles] in [server.js]. *)
Definition refresh (now : Z) : M (list Listing) :=
  res <- fetch ;;
  if negb (ok res) then throw (ErrFetchFailed (status res))
  else storeCatalog now (extractItems (body res)).

(** [catch (err) { console.error(...); throw err; }]. *)
Definition scrapeUsedPaddles : M (list Listing) :=
  now <- dateNow ;;
  c <- getCache ;;
  if cacheFresh c now
  then ret (match data c with Some d => d | None => [] end)
  else tryCatch (refresh now) (fun err => throw err).

Definition offer : Request -> World -> Response * World :=
  offerHandler scrapeUsedPaddles bestMatch.

End ServerJs.

(** ** The retry revisions [part_000] and [part_001] *)

Module RetryRev.

(** [const ALIASES = { ... }]; [Object.entries] lists string keys in the
    order in which the literal gives them. *)
Definition ALIASES : list (jsstring * jsstring) :=
  [ (lit "peresus pro 4", lit "peresus pro iv");
    (lit "peresus pro iv", lit "peresus pro iv");
    (lit "ben johns perseus", lit "peresus pro iv");
    (lit "joola perseus", lit "peresus pro iv");
    (lit "perseus pro", lit "peresus pro");
    (lit "bantam exps", lit "bantam exps");
    (lit "bantam xl", lit "bantam xl");
    (lit "onyx pro", lit "onyx") ].

(** [for (const [alias, target] of Object.entries(ALIASES))
       if (normalizedQuery.includes(alias)) { normalizedQuery = target; break; }] *)
Fixpoint aliasLoop (entries : list (jsstring * jsstring)) (q : jsstring)
  : jsstring :=
  match entries with
  | [] => q
  | (alias, target) :: rest =>
      if includes q alias then target else aliasLoop rest q
  end.

Definition aliasRewrite (q : jsstring) : jsstring := aliasLoop ALIASES q.

(** The first loop: [return item] at the first containment. *)
Definition substringPhase (q : jsstring) (dataset : list Listing)
  : option Listing :=
  find (containsEither q) dataset.

(** The second loop: [hits > 0 && (!best || hits > best.hits)]. *)
Definition tokenStep (qTokens : list jsstring) (best : option (Listing * nat))
    (item : Listing) : option (Listing * nat) :=
  let hits := hitCount qTokens item in
  let better :=
    match best with
    | None => true
    | Some (_, bhits) => bhits <? hits
    end in
  if (0 <? hits) && better then Some (item, hits) else best.

Definition tokenPhase (q : jsstring) (dataset : list Listing)
  : option (Listing * nat) :=
  fold_left (tokenStep (tokens q)) dataset None.

(** Everything of [bestMatch] below the alias loop, run on
    [normalizedQuery]. *)
Definition matchQuery (normalizedQuery : jsstring) (dataset : list Listing)
  : option Match :=
  match substringPhase normalizedQuery dataset with
  | Some item => Some (mkMatch item Plain)
  | None =>
      match tokenPhase normalizedQuery dataset with
      | Some (item, hits) => Some (mkMatch item (Hits hits))
      | None => None
      end
  end.

Definition bestMatch (model : jsstring) (dataset : list Listing)
  : option Match :=
  let q := normalize model in
  if truthy q then matchQuery (aliasRewrite q) dataset else None.

(** What one turn of the loop of [fetchWithRetry] decides. *)
Inductive Turn := Return (res : HttpResponse) | Continue.

(** The body of [for (let i = 0; i < retries; i++)]: the [try] block and its
    [catch].  The [throw new Error(`HTTP ${res.status}`)] stands inside the
    [try], so the [catch] of the same turn receives it. *)
Definition attempt (retries i : nat) : M Turn :=
  tryCatch
    (res <- fetch ;;
     if (status res =? 406)%Z || (500 <=? status res)%Z then
       if (i =? retries - 1)%nat then ret (Return res)
       else wait (3000 * (Z.of_nat i + 1))%Z ;;; ret Continue
     else if negb (ok res) then throw (ErrHttp (status res))
     else ret (Return res))
    (fun err =>
       if (i =? retries - 1)%nat then throw err
       else wait (3000 * (Z.of_nat i + 1))%Z ;;; ret Continue).

(** The loop from index [i] with [remaining = retries - i] turns left; when
    it runs out the function returns [undefined]. *)
Fixpoint attemptsFrom (retries i remaining : nat) : M (option HttpResponse) :=
  match remaining with
  | O => ret None
  | S k =>
      t <- attempt retries i ;;
      match t with
      | Return res => ret (Some res)
      | Continue => attemptsFrom retries (S i) k
      end
  end.

(** [async function fetchWithRetry(url, options, retries = 3)]. *)
Definition fetchWithRetry (retries : nat) : M (option HttpResponse) :=
  attemptsFrom retries 0 retries.

(** The [try] block of [scrapeUsedPaddles] in the retry revisions. *)
Definition refresh (now : Z) : M (list Listing) :=
  r <- fetchWithRetry 3 ;;
  match r with
  | None => throw ErrType
  | Some res =>
      if negb (ok res) then throw (ErrHttpPage (status res))
      else storeCatalog now (extractItems (body res))
  end.

(** [catch (err) { ...; if (CACHE.data) return CACHE.data; throw err; }]. *)
Definition scrapeUsedPaddles : M (list Listing) :=
  now <- dateNow ;;
  c <- getCache ;;
  if cacheFresh c now
  then ret (match data c with Some d => d | None => [] end)
  else tryCatch (refresh now)
         (fun err =>
            c' <- getCache ;;
            match data c' with
            | Some d => ret d
            | None => throw err
            end).

Definition offer : Request -> World -> Response * World :=
  offerHandler scrapeUsedPaddles bestMatch.

End RetryRev.

(** ** Predicates and fixtures of the properties *)

(** What a normalized string looks like: white space occurs only as a
    single space between two other characters. *)
Fixpoint collapsed (inRun : bool) (s : jsstring) : bool :=
  match s with
  | [] => true
  | c :: r =>
      if isWhite c
      then (if ascii_dec c space then true else false)
           && negb inRun && collapsed true r
      else collapsed false r
  end.

(** Every character is its own lower case. *)
Definition lowered (s : jsstring) : Prop :=
  Forall (fun c => toLowerChar c = c) s.

(** The loop invariant of the deduplication: after the listings [seen],
    every key of the map holds a listing of [seen] with that key whose price
    text is at least as long as that of any listing of [seen] with the key,
    and every listing of [seen] has its key in the map. *)
Definition dedupInv (seen : list Listing) (m : JsMap Listing) : Prop :=
  (forall k v, mapGet k m = Some v ->
     keyOf v = k /\ In v seen /\
     forall it, In it seen -> keyOf it = k ->
       length (price it) <= length (price v)) /\
  (forall it, In it seen -> mapGet (keyOf it) m <> None).

(** The candidate held after a scan: the first of the containment matches
    seen whose overlap is the greatest. *)
Definition firstLongest (q : jsstring) (cands : list Listing)
    (r : option (Listing * nat)) : Prop :=
  match r with
  | None => cands = []
  | Some (it, s) =>
      s = overlap q it /\
      exists pre post,
        cands = pre ++ it :: post /\
        (forall c, In c pre -> overlap q c < overlap q it) /\
        (forall c, In c post -> overlap q c <= overlap q it)
  end.

(** Worlds for the instances: a cache filled at time 1000 with one
    listing and the default time to live, and an upstream that rejects every
    call. *)
Definition paddle : Listing := mkListing (lit "Bantam EXPS") (lit "$129.00").

Definition populated (now : Z) (net : nat -> FetchOutcome) : World :=
  mkWorld (mkCache (Some [paddle]) 1000 300000) now net 0 [].

Definition down : nat -> FetchOutcome :=
  fun _ => NetworkError (lit "ECONNRESET").

(** A status that is neither successful, nor 406, nor 500 and above. *)
Definition otherFailure (res : HttpResponse) : Prop :=
  ok res = false /\ status res <> 406%Z /\ (status res < 500)%Z.

(** An upstream that answers 404 to the first call and 200 afterwards. *)
Definition notFoundThenFine : nat -> FetchOutcome :=
  fun n => match n with
           | O => Responds (mkResponse 404 [])
           | _ => Responds (mkResponse 200 [])
           end.

(** The offer that the claim words describe, in cents, for a midpoint
    [(loCents + hiCents) / 200]: half of it is
    [(loCents + hiCents) / 400] units, i.e. [(loCents + hiCents) / 4] cents,
    rounded to a whole number of cents with halves going up. *)
Definition halfUpCents (loCents hiCents : Z) : Z :=
  ((loCents + hiCents + 2) / 4)%Z.

(** The offer for a matched listing with the given price text. *)
Definition offerFor (priceText : jsstring) : option number :=
  option_map (fun p => fixedOffer (mid p)) (priceParse priceText).

(** A request whose model is three spaces, the server just started, and an
    upstream that serves one listing. *)
Definition blankRequest : Request :=
  mkRequest (Some (lit "   ")) (Some (lit "good")) None.

Definition emptyWorld (net : nat -> FetchOutcome) : World :=
  mkWorld initialCache 1700000000000 net 0 [].

Definition oneListing : nat -> FetchOutcome :=
  fun _ => Responds (mkResponse 200
    [mkCandidate (lit " Bantam EXPS ") None (lit "") (lit "$129.00")]).

(** The end-to-end test of the specification: the upstream serves one
    listing, "Joola Perseus Pro IV" at "$199.99", and the request asks for
    "perseus pro 4" in good condition. *)
Definition perseusUpstream : nat -> FetchOutcome :=
  fun _ => Responds (mkResponse 200
    [mkCandidate (lit "Joola Perseus Pro IV") None (lit "") (lit "$199.99")]).

Definition perseusRequest : Request :=
  mkRequest (Some (lit "perseus pro 4")) (Some (lit "good")) None.

(** A text of the form: one digit or more, a point, two digits. *)
Definition priceShaped (m : jsstring) : Prop :=
  exists ds a b,
    m = ds ++ ["."%char; a; b] /\ ds <> [] /\
    forallb isDigit ds = true /\ isDigit a = true /\ isDigit b = true.

(** The text has a substring of that form. *)
Definition containsPrice (text : jsstring) : Prop :=
  exists pre m post, text = pre ++ m ++ post /\ priceShaped m.

(** What follows a run of digits does not start with a digit. *)
Definition stopsDigits (rest : jsstring) : Prop :=
  match rest with c :: _ => isDigit c = false | [] => True end.

(** Zero, a positive finite number or [+Infinity]: neither [NaN], nor
    negative, nor [-0]. *)
Definition plain (x : number) : bool :=
  match x with
  | S754_zero false | S754_infinity false | S754_finite false _ _ => true
  | _ => false
  end.

(** A mantissa at its canonical exponent, or zero at the least exponent. *)
Definition canon (m e : Z) : Prop :=
  ((0 < m)%Z /\ fexp prec emax (Zdigits2 m + e) = e) \/
  (m = 0%Z /\ e = emin prec emax).

(** 2 to the power 1023: from there on [v + v] overflows. *)
Definition twoTo1023 : number := SFldexp prec emax (ofInt 1) 1023.

(** A price of 309 digits before the point: 1 followed by 308 zeros. *)
Definition hugePrice : jsstring :=
  lit "$1" ++ repeat "0"%char 308 ++ lit ".00".

(** Case analysis on numbers and on the comparisons of [SFcompare]. *)
Ltac plain_cases :=
  repeat match goal with
         | x : number |- _ => destruct x as [[|]|[|]| |[|] ? ?]
         end;
  cbn in *; try discriminate; try reflexivity.

Ltac cmp_cases :=
  repeat match goal with
         | H : context [Z.compare ?a ?b] |- _ =>
             destruct (Z.compare_spec a b)
         | |- context [Z.compare ?a ?b] => destruct (Z.compare_spec a b)
         | H : context [Pos.compare_cont Eq ?a ?b] |- _ =>
             change (Pos.compare_cont Eq a b) with (Pos.compare a b) in *;
             destruct (Pos.compare_spec a b)
         | |- context [Pos.compare_cont Eq ?a ?b] =>
             change (Pos.compare_cont Eq a b) with (Pos.compare a b) in *;
             destruct (Pos.compare_spec a b)
         end;
  try discriminate; try reflexivity; try lia.

(** ** Predicates of the further properties *)

(** The candidate of the token phase of [server.js] after the entries
    [seen]: none when no entry has a hit; otherwise an entry of [seen] with
    the most hits and, among those, a name of the greatest length. *)
Definition tokenBest (toks : list jsstring) (seen : list Listing)
    (r : option (Listing * nat)) : Prop :=
  match r with
  | None => forall c, In c seen -> hitCount toks c = 0
  | Some (a, h) =>
      h = hitCount toks a /\ 0 < h /\ In a seen /\
      forall c, In c seen ->
        hitCount toks c <= h /\
        (hitCount toks c = h -> length (name c) <= length (name a))
  end.

(** The candidate of the token phase of the retry revisions: the first
    entry with the most hits. *)
Definition tokenFirstBest (toks : list jsstring) (seen : list Listing)
    (r : option (Listing * nat)) : Prop :=
  match r with
  | None => forall c, In c seen -> hitCount toks c = 0
  | Some (a, h) =>
      h = hitCount toks a /\ 0 < h /\
      exists pre post,
        seen = pre ++ a :: post /\
        (forall c, In c pre -> hitCount toks c < h) /\
        (forall c, In c post -> hitCount toks c <= h)
  end.

(** A small catalog for the instances. *)
Definition bantam : Listing := mkListing (lit "Bantam") (lit "$59.00").
Definition bantamExps : Listing :=
  mkListing (lit "Paddletek Bantam EXPS 14") (lit "$129.00").
Definition onyx : Listing := mkListing (lit "Onyx Evoke Pro") (lit "$79.50").

(** A status on which [fetchWithRetry] takes the retry branch. *)
Definition retryable (res : HttpResponse) : Prop :=
  status res = 406%Z \/ (500 <= status res)%Z.

(** The longest time [fetchWithRetry] can spend waiting from attempt [i]
    with [remaining] attempts left: [3000 * (i + 1)] after every attempt
    but the last. *)
Fixpoint waitBudget (i remaining : nat) : Z :=
  match remaining with
  | O => 0%Z
  | S k =>
      ((match k with O => 0 | S _ => 3000 * (Z.of_nat i + 1) end)
       + waitBudget (S i) k)%Z
  end.

(** ** Properties of [normalize] *)

Lemma toLowerChar_idem c : toLowerChar (toLowerChar c) = toLowerChar c.
Proof.
  destruct c as [[|] [|] [|] [|] [|] [|] [|] [|]]; reflexivity.
Qed.

Lemma toLowerChar_white c : isWhite (toLowerChar c) = isWhite c.
Proof.
  destruct c as [[|] [|] [|] [|] [|] [|] [|] [|]]; reflexivity.
Qed.

Lemma lowered_toLowerCase s : lowered (toLowerCase s).
Proof.
  induction s as [|c r IH]; constructor; auto using toLowerChar_idem.
Qed.

Lemma lowered_fix s : lowered s -> toLowerCase s = s.
Proof.
  induction 1 as [|c r Hc _ IH]; simpl; congruence.
Qed.

Lemma lowered_collapseFrom b s : lowered s -> lowered (collapseFrom b s).
Proof.
  intros H; revert b; induction H as [|c r Hc _ IH]; intros b; simpl.
  - constructor.
  - destruct (isWhite c), b; try apply IH; constructor;
      solve [reflexivity | assumption | apply IH].
Qed.

Lemma lowered_trimStart s : lowered s -> lowered (trimStart s).
Proof.
  induction 1 as [|c r Hc Hr IH]; simpl; [constructor|].
  destruct (isWhite c); auto. constructor; auto.
Qed.

Lemma lowered_trimEnd s : lowered s -> lowered (trimEnd s).
Proof.
  induction 1 as [|c r Hc Hr IH]; simpl; [constructor|].
  destruct (trimEnd r) eqn:E.
  - destruct (isWhite c); repeat constructor; auto.
  - constructor; auto.
Qed.

Lemma collapsed_weaken s : collapsed true s = true -> collapsed false s = true.
Proof.
  destruct s as [|c r]; simpl; auto.
  destruct (isWhite c); auto. rewrite andb_false_r. discriminate.
Qed.

Lemma collapsed_collapseFrom b s : collapsed b (collapseFrom b s) = true.
Proof.
  revert b; induction s as [|c r IH]; intros b; simpl; auto.
  destruct (isWhite c) eqn:W.
  - destruct b; [apply IH|]. simpl. apply IH.
  - simpl. rewrite W. apply IH.
Qed.

Lemma collapsed_fix b s : collapsed b s = true -> collapseFrom b s = s.
Proof.
  revert b; induction s as [|c r IH]; intros b; simpl; auto.
  destruct (isWhite c) eqn:W.
  - destruct (ascii_dec c space) as [->|]; [|discriminate].
    destruct b; simpl; [discriminate|]. intros H. f_equal. auto.
  - intros H. f_equal. auto.
Qed.

Lemma collapsed_trimStart b s :
  collapsed b s = true -> collapsed false (trimStart s) = true.
Proof.
  revert b; induction s as [|c r IH]; intros b; simpl; auto.
  destruct (isWhite c) eqn:W.
  - intros H. apply andb_prop in H as [_ H]. eauto.
  - intros H. simpl. rewrite W. exact H.
Qed.

Lemma collapsed_trimEnd b s :
  collapsed b s = true -> collapsed b (trimEnd s) = true.
Proof.
  revert b; induction s as [|c r IH]; intros b; simpl; auto.
  destruct (isWhite c) eqn:W.
  - intros H. apply andb_prop in H as [H1 H2].
    specialize (IH _ H2). destruct (trimEnd r) eqn:E; auto.
    cbn [collapsed]. rewrite W, H1. exact IH.
  - intros H. specialize (IH _ H). destruct (trimEnd r) eqn:E.
    + simpl. now rewrite W.
    + cbn [collapsed]. now rewrite W.
Qed.

Lemma trimEnd_idem s : trimEnd (trimEnd s) = trimEnd s.
Proof.
  induction s as [|c r IH]; cbn [trimEnd]; auto.
  destruct (trimEnd r) as [|d r'] eqn:E.
  - destruct (isWhite c) eqn:W; cbn [trimEnd]; auto. now rewrite W.
  - change (trimEnd (c :: d :: r')) with
      (match trimEnd (d :: r') with
       | [] => if isWhite c then [] else [c]
       | x :: l => c :: x :: l
       end).
    now rewrite IH.
Qed.

Lemma trimStart_trim s : trimStart (trim s) = trim s.
Proof.
  unfold trim. induction s as [|c r IH]; cbn [trimStart trimEnd]; auto.
  destruct (isWhite c) eqn:W; auto.
  cbn [trimEnd]. destruct (trimEnd r); rewrite ?W; cbn [trimStart]; now rewrite W.
Qed.

Lemma trim_idem s : trim (trim s) = trim s.
Proof.
  unfold trim at 1. rewrite trimStart_trim. unfold trim. apply trimEnd_idem.
Qed.

(** C9.  [normalize] is idempotent: normalizing a normalized string changes
    nothing. *)
Theorem normalize_idempotent (x : jsstring) :
  normalize (normalize x) = normalize x.
Proof.
  assert (L : lowered (normalize x)).
  { unfold normalize, trim, collapseWhite.
    auto using lowered_trimEnd, lowered_trimStart, lowered_collapseFrom,
      lowered_toLowerCase. }
  assert (C : collapsed false (normalize x) = true).
  { unfold normalize, trim, collapseWhite.
    apply collapsed_trimEnd.
    apply collapsed_trimStart with (b := false).
    apply collapsed_collapseFrom. }
  unfold normalize at 1. rewrite (lowered_fix L).
  unfold collapseWhite. rewrite (collapsed_fix _ _ C).
  unfold normalize. apply trim_idem.
Qed.

(** ** Facts about the map *)

Lemma mapGet_mapSet V (k k' : jsstring) (v : V) m :
  mapGet k (mapSet k' v m) =
  if jsstring_eq_dec k' k then Some v else mapGet k m.
Proof.
  induction m as [|[k0 x] r IH]; simpl.
  - destruct (jsstring_eq_dec k' k); reflexivity.
  - destruct (jsstring_eq_dec k0 k') as [->|N]; simpl.
    + destruct (jsstring_eq_dec k' k); reflexivity.
    + destruct (jsstring_eq_dec k0 k) as [->|N'].
      * destruct (jsstring_eq_dec k' k); congruence.
      * exact IH.
Qed.

Lemma mapGet_In_keys V (k : jsstring) (m : JsMap V) :
  mapGet k m <> None <-> In k (map fst m).
Proof.
  induction m as [|[k0 x] r IH]; simpl.
  - tauto.
  - destruct (jsstring_eq_dec k0 k) as [->|N].
    + split; [auto | discriminate].
    + rewrite IH. tauto.
Qed.

Lemma keys_mapSet V (k : jsstring) (v : V) m :
  map fst (mapSet k v m) =
  if in_dec jsstring_eq_dec k (map fst m) then map fst m else map fst m ++ [k].
Proof.
  induction m as [|[k0 x] r IH]; simpl; auto.
  destruct (jsstring_eq_dec k0 k) as [->|N]; simpl; auto.
  rewrite IH. destruct (in_dec jsstring_eq_dec k (map fst r)); reflexivity.
Qed.

Lemma mapHas_in_dec V (k : jsstring) (m : JsMap V) :
  mapHas k m = if in_dec jsstring_eq_dec k (map fst m) then true else false.
Proof.
  unfold mapHas. pose proof (mapGet_In_keys k m) as H.
  destruct (in_dec jsstring_eq_dec k (map fst m)) as [i|n].
  - apply H in i. destruct (mapGet k m); congruence.
  - destruct (mapGet k m); auto. exfalso. apply n, H. discriminate.
Qed.

Lemma keys_dedupStep m it :
  map fst (dedupStep m it) =
  if in_dec jsstring_eq_dec (keyOf it) (map fst m)
  then map fst m else map fst m ++ [keyOf it].
Proof.
  unfold dedupStep. rewrite mapHas_in_dec.
  destruct (in_dec jsstring_eq_dec (keyOf it) (map fst m)) as [i|n] eqn:E;
    cbn [negb orb].
  - destruct (mapGet (keyOf it) m) as [old|]; auto.
    destruct (length (price old) <? length (price it)); auto.
    rewrite keys_mapSet, E. reflexivity.
  - rewrite keys_mapSet, E. reflexivity.
Qed.

Lemma keys_fold_dedupStep items m :
  map fst (fold_left dedupStep items m) =
  fold_left
    (fun seen k => if in_dec jsstring_eq_dec k seen then seen else seen ++ [k])
    (map keyOf items) (map fst m).
Proof.
  revert m; induction items as [|it r IH]; intros m; simpl; auto.
  rewrite IH, keys_dedupStep. reflexivity.
Qed.

Lemma NoDup_firstSeen_from keys seen :
  NoDup seen ->
  NoDup (fold_left
    (fun seen k => if in_dec jsstring_eq_dec k seen then seen else seen ++ [k])
    keys seen).
Proof.
  revert seen; induction keys as [|k r IH]; intros seen H; simpl; auto.
  apply IH. destruct (in_dec jsstring_eq_dec k seen) as [i|n]; auto.
  apply NoDup_rev in H. rewrite <- (rev_involutive (seen ++ [k])).
  apply NoDup_rev. rewrite rev_app_distr. simpl. constructor; auto.
  now rewrite <- in_rev.
Qed.

Lemma mapGet_of_In V (k : jsstring) (v : V) m :
  NoDup (map fst m) -> In (k, v) m -> mapGet k m = Some v.
Proof.
  induction m as [|[k0 x] r IH]; simpl; [tauto|].
  intros ND [E|I].
  - inversion E; subst. destruct (jsstring_eq_dec k k); congruence.
  - inversion ND as [|? ? N ND']; subst.
    destruct (jsstring_eq_dec k0 k) as [->|_]; auto.
    exfalso. apply N. change k with (fst (k, v)). now apply in_map.
Qed.

Lemma dedupInv_step seen m it :
  dedupInv seen m -> dedupInv (seen ++ [it]) (dedupStep m it).
Proof.
  intros [I1 I2]. unfold dedupStep, mapHas.
  destruct (mapGet (keyOf it) m) as [old|] eqn:G; cbn [negb orb].
  - destruct (I1 _ _ G) as (Ko & Io & Lo).
    destruct (Nat.ltb_spec (length (price old)) (length (price it))) as [L|L].
    + split.
      * intros k v. rewrite mapGet_mapSet.
        destruct (jsstring_eq_dec (keyOf it) k) as [E|N].
        -- intros [= <-]. repeat split; auto.
           ++ apply in_or_app; right; left; reflexivity.
           ++ intros it' I' K'. apply in_app_or in I' as [I'|[<-|[]]]; auto.
              apply Nat.lt_le_incl, Nat.le_lt_trans with (2 := L).
              apply Lo; congruence.
        -- intros G'. destruct (I1 _ _ G') as (K & I & Lv).
           repeat split; auto.
           ++ apply in_or_app; auto.
           ++ intros it' I' K'. apply in_app_or in I' as [I'|[<-|[]]]; auto; congruence.
      * intros it' I'. rewrite mapGet_mapSet.
        destruct (jsstring_eq_dec (keyOf it) (keyOf it')); [discriminate|].
        apply in_app_or in I' as [I'|[<-|[]]]; auto; congruence.
    + split.
      * intros k v G'. destruct (I1 _ _ G') as (K & I & Lv).
        repeat split; auto.
        -- apply in_or_app; auto.
        -- intros it' I' K'. apply in_app_or in I' as [I'|[<-|[]]]; auto.
           assert (v = old) by congruence. subst v. exact L.
      * intros it' I'. apply in_app_or in I' as [I'|[<-|[]]]; auto; congruence.
  - split.
    + intros k v. rewrite mapGet_mapSet.
      destruct (jsstring_eq_dec (keyOf it) k) as [E|N].
      * intros [= <-]. repeat split; auto.
        -- apply in_or_app; right; left; reflexivity.
        -- intros it' I' K'. apply in_app_or in I' as [I'|[<-|[]]]; auto.
           exfalso. apply (I2 _ I'). congruence.
      * intros G'. destruct (I1 _ _ G') as (K & I & Lv).
        repeat split; auto.
        -- apply in_or_app; auto.
        -- intros it' I' K'. apply in_app_or in I' as [I'|[<-|[]]]; auto; congruence.
    + intros it' I'. rewrite mapGet_mapSet.
      destruct (jsstring_eq_dec (keyOf it) (keyOf it')); [discriminate|].
      apply in_app_or in I' as [I'|[<-|[]]]; auto; congruence.
Qed.

Lemma dedupInv_fold items seen m :
  dedupInv seen m -> dedupInv (seen ++ items) (fold_left dedupStep items m).
Proof.
  revert seen m; induction items as [|it r IH]; intros seen m H; simpl.
  - now rewrite app_nil_r.
  - replace (seen ++ it :: r) with ((seen ++ [it]) ++ r)
      by (rewrite <- app_assoc; reflexivity).
    apply IH, dedupInv_step, H.
Qed.

Lemma dedupInv_dedupMap items : dedupInv items (dedupMap items).
Proof.
  apply (@dedupInv_fold items [] []).
  split; [discriminate | intros ? []].
Qed.

Lemma keys_dedupMap items :
  map fst (dedupMap items) = firstSeen (map keyOf items).
Proof. apply keys_fold_dedupStep. Qed.

Lemma NoDup_keys_dedupMap items : NoDup (map fst (dedupMap items)).
Proof.
  rewrite keys_dedupMap. apply NoDup_firstSeen_from. constructor.
Qed.

Lemma dedupe_keys items : map keyOf (dedupe items) = map fst (dedupMap items).
Proof.
  unfold dedupe, mapValues.
  pose proof (dedupInv_dedupMap items) as [I1 _].
  pose proof (NoDup_keys_dedupMap items) as ND.
  assert (H : forall k v, In (k, v) (dedupMap items) -> keyOf v = k).
  { intros k v I. apply (I1 k v). now apply mapGet_of_In. }
  induction (dedupMap items) as [|[k v] r IH]; simpl; auto.
  f_equal.
  - apply H. now left.
  - apply IH.
    + intros k' v' G. apply I1. simpl.
      destruct (jsstring_eq_dec k k') as [->|]; auto.
      inversion ND as [|? ? N _]; subst. exfalso. apply N.
      apply mapGet_In_keys. congruence.
    + now inversion ND.
    + intros k' v' I. apply H. now right.
Qed.

(** C6.  Deduplication by normalized name: the keys of the catalog come in
    the order in which they are first seen in the scrape, without repetition;
    every kept listing is one of the scraped ones and no scraped listing with
    the same key has a longer price text; of two listings with one key and
    price texts of 6 and 10 characters the one with 10 is kept, whichever
    comes first. *)
Theorem dedupe_keeps_longest_in_first_seen_order :
  (forall items,
     map keyOf (dedupe items) = firstSeen (map keyOf items) /\
     NoDup (map keyOf (dedupe items)) /\
     (forall it, In it items -> In (keyOf it) (map keyOf (dedupe items))) /\
     forall kept, In kept (dedupe items) ->
       In kept items /\
       forall it, In it items -> keyOf it = keyOf kept ->
         length (price it) <= length (price kept)) /\
  (forall a b,
     keyOf a = keyOf b -> length (price a) = 6 -> length (price b) = 10 ->
     dedupe [a; b] = [b] /\ dedupe [b; a] = [b]).
Proof.
  split.
  - intros items.
    pose proof (dedupInv_dedupMap items) as [I1 I2].
    pose proof (NoDup_keys_dedupMap items) as ND.
    rewrite dedupe_keys. repeat split.
    + apply keys_dedupMap.
    + exact ND.
    + intros it I. apply mapGet_In_keys. auto.
    + unfold dedupe, mapValues in H. apply in_map_iff in H as ([k v] & <- & I).
      apply (I1 k v). now apply mapGet_of_In.
    + unfold dedupe, mapValues in H. apply in_map_iff in H as ([k v] & <- & I).
      simpl. intros it Ii K.
      destruct (I1 k v (mapGet_of_In _ _ _ ND I)) as (Kv & _ & L).
      apply L; auto. congruence.
  - intros a b K La Lb.
    unfold dedupe, dedupMap, dedupStep, mapHas, mapValues; simpl.
    rewrite <- K.
    destruct (jsstring_eq_dec (keyOf a) (keyOf a)) as [_|N]; [|congruence].
    simpl. rewrite La, Lb. simpl.
    destruct (jsstring_eq_dec (keyOf a) (keyOf a)) as [_|N]; [|congruence].
    split; reflexivity.
Qed.

(** C6 at two listings of one product, the longer price text second. *)
Lemma dedupe_keeps_longest_witness :
  dedupe [mkListing (lit "Bantam  EXPS") (lit "$99.00");
          mkListing (lit "bantam exps") (lit "$99.00 USD")]
  = [mkListing (lit "bantam exps") (lit "$99.00 USD")].
Proof.
  apply (proj2 dedupe_keeps_longest_in_first_seen_order
           (mkListing (lit "Bantam  EXPS") (lit "$99.00"))
           (mkListing (lit "bantam exps") (lit "$99.00 USD")));
    reflexivity.
Defined.

(** ** The substring phase of [server.js] *)

Lemma firstLongest_step q seen r x :
  firstLongest q (filter (containsEither q) seen) r ->
  firstLongest q (filter (containsEither q) (seen ++ [x]))
    (ServerJs.substringStep q r x).
Proof.
  unfold ServerJs.substringStep. rewrite filter_app. cbn [filter].
  destruct (containsEither q x) eqn:C.
  - destruct r as [[it s]|]; cbn [firstLongest].
    + intros (-> & pre & post & E & Hpre & Hpost). rewrite E.
      destruct (Nat.ltb_spec (overlap q it) (overlap q x)) as [L|L];
        cbn [firstLongest]; split; auto.
      * exists (pre ++ it :: post), []. repeat split.
        -- intros c I. apply in_app_or in I as [I|[<-|I]]; auto.
           ++ specialize (Hpre _ I). lia.
           ++ specialize (Hpost _ I). lia.
        -- intros c [].
      * exists pre, (post ++ [x]). repeat split; auto.
        -- now rewrite <- app_assoc.
        -- intros c I. apply in_app_or in I as [I|[<-|[]]]; auto.
    + intros ->. split; auto. exists [], []. repeat split; intros c [].
  - rewrite app_nil_r. auto.
Qed.

Lemma firstLongest_fold q dataset seen r :
  firstLongest q (filter (containsEither q) seen) r ->
  firstLongest q (filter (containsEither q) (seen ++ dataset))
    (fold_left (ServerJs.substringStep q) dataset r).
Proof.
  revert seen r; induction dataset as [|x d IH]; intros seen r H; simpl.
  - now rewrite app_nil_r.
  - replace (seen ++ x :: d) with ((seen ++ [x]) ++ d)
      by (rewrite <- app_assoc; reflexivity).
    apply IH, firstLongest_step, H.
Qed.

Lemma substringPhase_firstLongest q dataset :
  firstLongest q (filter (containsEither q) dataset)
    (ServerJs.substringPhase q dataset).
Proof. apply (@firstLongest_fold q dataset [] None). reflexivity. Qed.

Lemma truthy_nonempty (s : jsstring) : s <> [] -> truthy s = true.
Proof. destruct s; [congruence | reflexivity]. Qed.

Lemma serverjs_substring_phase_longest model dataset :
  let q := normalize model in
  let cands := filter (containsEither q) dataset in
  q <> [] ->
  (cands = [] -> ServerJs.substringPhase q dataset = None) /\
  (cands <> [] ->
   exists it,
     ServerJs.bestMatch model dataset
       = Some (mkMatch it (Score (overlap q it))) /\
     In it cands /\
     (forall c, In c cands -> overlap q c <= overlap q it) /\
     exists pre post,
       cands = pre ++ it :: post /\
       forall c, In c pre -> overlap q c < overlap q it).
Proof.
  intros q cands Hq.
  pose proof (substringPhase_firstLongest q dataset) as H.
  fold cands in H. unfold ServerJs.bestMatch. fold q.
  rewrite (truthy_nonempty Hq).
  destruct (ServerJs.substringPhase q dataset) as [[it s]|];
    cbn [firstLongest] in H.
  - destruct H as (-> & pre & post & E & Hpre & Hpost). split.
    + intros E0. rewrite E0 in E. now destruct pre.
    + intros _. exists it. repeat split.
      * rewrite E. apply in_or_app. right. now left.
      * intros c I. rewrite E in I.
        apply in_app_or in I as [I|[<-|I]]; auto.
        specialize (Hpre _ I). lia.
      * exists pre, post. auto.
  - split; [reflexivity | congruence].
Qed.

Lemma find_filter A (f : A -> bool) l :
  find f l = hd_error (filter f l).
Proof.
  induction l as [|a l IH]; cbn [find filter]; auto.
  destruct (f a); auto.
Qed.

(** The substring phase of the retry revisions: the first containment match
    of the rewritten query, in catalog order. *)
Lemma retryrev_substring_phase_first model dataset :
  let q := RetryRev.aliasRewrite (normalize model) in
  let cands := filter (containsEither q) dataset in
  normalize model <> [] ->
  (cands = [] -> RetryRev.substringPhase q dataset = None) /\
  (forall it rest, cands = it :: rest ->
     RetryRev.bestMatch model dataset = Some (mkMatch it Plain)).
Proof.
  intros q cands Hq. unfold RetryRev.bestMatch. fold q.
  rewrite (truthy_nonempty Hq).
  unfold RetryRev.matchQuery, RetryRev.substringPhase.
  rewrite (find_filter (containsEither q) dataset). fold cands.
  split.
  - intros ->. reflexivity.
  - intros it rest ->. reflexivity.
Qed.

(** C2 as stated fails in the retry revisions: for the query "Bantam EXPS"
    both entries of the catalog are containment matches, the second has the
    greater overlap, and [bestMatch] returns the first. *)
Lemma bestMatch_substring_phase_retry_returns_first :
  filter (containsEither (normalize (lit "Bantam EXPS")))
    [bantam; bantamExps] = [bantam; bantamExps] /\
  overlap (normalize (lit "Bantam EXPS")) bantam = 6 /\
  overlap (normalize (lit "Bantam EXPS")) bantamExps = 11 /\
  RetryRev.aliasRewrite (normalize (lit "Bantam EXPS"))
  = normalize (lit "Bantam EXPS") /\
  RetryRev.bestMatch (lit "Bantam EXPS") [bantam; bantamExps]
  = Some (mkMatch bantam Plain).
Proof. vm_compute. repeat split; reflexivity. Defined.

(** C2, amended.  For a non-empty normalized query, the substring phase of
    [bestMatch] in [server.js] answers with the containment match of
    greatest overlap (the first of them in catalog order when several share
    it), and with nothing when no entry contains or is contained in the
    query; there are catalogs on which this is not the first containment
    match.  In the retry revisions the substring phase answers with the
    first containment match, in catalog order, of the query after the alias
    rewrite, whatever its overlap. *)
Theorem bestMatch_substring_phase_by_revision :
  (forall model dataset,
     let q := normalize model in
     let cands := filter (containsEither q) dataset in
     q <> [] ->
     (cands = [] -> ServerJs.substringPhase q dataset = None) /\
     (cands <> [] ->
      exists it,
        ServerJs.bestMatch model dataset
          = Some (mkMatch it (Score (overlap q it))) /\
        In it cands /\
        (forall c, In c cands -> overlap q c <= overlap q it) /\
        exists pre post,
          cands = pre ++ it :: post /\
          forall c, In c pre -> overlap q c < overlap q it)) /\
  (exists model dataset a b,
     filter (containsEither (normalize model)) dataset = [a; b] /\
     ServerJs.bestMatch model dataset
       = Some (mkMatch b (Score (overlap (normalize model) b))) /\
     a <> b) /\
  (forall model dataset,
     let q := RetryRev.aliasRewrite (normalize model) in
     let cands := filter (containsEither q) dataset in
     normalize model <> [] ->
     (cands = [] -> RetryRev.substringPhase q dataset = None) /\
     (forall it rest, cands = it :: rest ->
        RetryRev.bestMatch model dataset = Some (mkMatch it Plain))).
Proof.
  split; [|split].
  - apply serverjs_substring_phase_longest.
  - exists (lit "Bantam EXPS"), [bantam; bantamExps], bantam, bantamExps.
    repeat split; [vm_compute; reflexivity .. | discriminate].
  - apply retryrev_substring_phase_first.
Qed.

(** C2 at a catalog of two overlapping names: in [server.js] the second,
    longer overlap is the answer; in the retry revisions the first entry
    is. *)
Lemma bestMatch_substring_phase_witness :
  (exists it,
     ServerJs.bestMatch (lit " Bantam  EXPS ") [bantam; bantamExps]
     = Some (mkMatch it
         (Score (overlap (normalize (lit " Bantam  EXPS ")) it))) /\
     In it [bantam; bantamExps]) /\
  RetryRev.bestMatch (lit " Bantam  EXPS ") [bantam; bantamExps]
  = Some (mkMatch bantam Plain).
Proof.
  split.
  - destruct (proj1 bestMatch_substring_phase_by_revision
                (lit " Bantam  EXPS ") [bantam; bantamExps])
      as [_ H]; [vm_compute; discriminate|].
    destruct H as (it & E & I & _); [vm_compute; discriminate|].
    exists it. split; [exact E | exact I].
  - destruct (proj2 (proj2 bestMatch_substring_phase_by_revision)
                (lit " Bantam  EXPS ") [bantam; bantamExps])
      as [_ H]; [vm_compute; discriminate|].
    apply (H bantam [bantamExps]). vm_compute. reflexivity.
Defined.

(** The retry revisions answer with the first containment match: on the
    catalog of the instance above they return the shorter name. *)
Lemma retryrev_substring_phase_first_match :
  RetryRev.bestMatch (lit "Bantam EXPS")
    [mkListing (lit "Bantam") (lit "$59.00");
     mkListing (lit "Paddletek Bantam EXPS 14") (lit "$129.00")]
  = Some (mkMatch (mkListing (lit "Bantam") (lit "$59.00")) Plain).
Proof. vm_compute. reflexivity. Qed.

(** ** The alias table of the retry revisions *)

Lemma aliasLoop_first_match entries q :
  (exists pre alias target post,
     entries = pre ++ (alias, target) :: post /\
     includes q alias = true /\
     (forall e, In e pre -> includes q (fst e) = false) /\
     RetryRev.aliasLoop entries q = target) \/
  ((forall e, In e entries -> includes q (fst e) = false) /\
   RetryRev.aliasLoop entries q = q).
Proof.
  induction entries as [|[alias target] rest IH]; simpl.
  - right. split; [intros e [] | reflexivity].
  - destruct (includes q alias) eqn:I.
    + left. exists [], alias, target, rest. repeat split; auto. intros e [].
    + destruct IH as [(pre & a & t & post & -> & Ia & Hpre & E)|[Hall E]].
      * left. exists ((alias, target) :: pre), a, t, post. repeat split; auto.
        intros e [<-|Ie]; auto.
      * right. split; auto. intros e [<-|Ie]; auto.
Qed.

(** ** The cache test and the refresh *)

Lemma storeCatalog_ok now items w :
  exists w', storeCatalog now items w = (Ok (dedupe items), w') /\
             fetches w' = fetches w.
Proof. eexists. split; reflexivity. Qed.

Lemma fetch_counts w :
  fetches (snd (fetch w)) = S (fetches w) /\ CACHE (snd (fetch w)) = CACHE w.
Proof. unfold fetch. destruct (upstream w (fetches w)); split; reflexivity. Qed.

(** One turn of the retry loop calls [fetch] once and leaves [CACHE] alone. *)
Lemma attempt_counts retries i w :
  fetches (snd (RetryRev.attempt retries i w)) = S (fetches w) /\
  CACHE (snd (RetryRev.attempt retries i w)) = CACHE w.
Proof.
  unfold RetryRev.attempt, tryCatch, bind, fetch.
  destruct (upstream w (fetches w)) as [res|msg]; cbn [fst snd].
  - destruct ((status res =? 406)%Z || (500 <=? status res)%Z).
    + destruct (i =? retries - 1); split; reflexivity.
    + destruct (negb (ok res)); cbn [throw];
        [destruct (i =? retries - 1)|]; split; reflexivity.
  - destruct (i =? retries - 1); split; reflexivity.
Qed.

Lemma attemptsFrom_counts retries remaining i w :
  fetches w <= fetches (snd (RetryRev.attemptsFrom retries i remaining w)) /\
  (remaining <> 0 ->
   fetches w < fetches (snd (RetryRev.attemptsFrom retries i remaining w))) /\
  CACHE (snd (RetryRev.attemptsFrom retries i remaining w)) = CACHE w.
Proof.
  revert i w; induction remaining as [|k IH]; intros i w.
  - cbn. repeat split; auto. congruence.
  - cbn [RetryRev.attemptsFrom]. unfold bind.
    destruct (attempt_counts retries i w) as [F C].
    destruct (RetryRev.attempt retries i w) as [[[res|]|e] w1]; cbn [fst snd] in *.
    + cbn. rewrite F. repeat split; auto.
    + destruct (IH (S i) w1) as (L & _ & C'). rewrite C', C, F in *.
      repeat split; auto; lia.
    + rewrite F. repeat split; auto.
Qed.

Lemma serverjs_refresh_counts now w :
  fetches (snd (ServerJs.refresh now w)) = S (fetches w) /\
  forall e w', ServerJs.refresh now w = (Throw e, w') -> CACHE w' = CACHE w.
Proof.
  unfold ServerJs.refresh, bind.
  destruct (fetch_counts w) as [F C].
  destruct (fetch w) as [[res|e] w1]; cbn [fst snd] in *.
  - destruct (negb (ok res)); cbn.
    + split; auto. intros ? ? [= <- <-]. exact C.
    + split; auto. discriminate.
  - split; auto. intros ? ? [= <- <-]. exact C.
Qed.

Lemma retryrev_refresh_counts now w :
  fetches w < fetches (snd (RetryRev.refresh now w)) /\
  forall e w', RetryRev.refresh now w = (Throw e, w') -> CACHE w' = CACHE w.
Proof.
  unfold RetryRev.refresh, RetryRev.fetchWithRetry, bind.
  destruct (attemptsFrom_counts 3 3 0 w) as (_ & F & C).
  specialize (F ltac:(discriminate)).
  destruct (RetryRev.attemptsFrom 3 0 3 w) as [[[res|]|e] w1];
    cbn [fst snd] in *.
  - destruct (negb (ok res)); cbn.
    + split; auto. intros ? ? [= <- <-]. exact C.
    + split; auto. discriminate.
  - cbn. split; auto. intros ? ? [= <- <-]. exact C.
  - split; auto. intros ? ? [= <- <-]. exact C.
Qed.

Lemma cacheFresh_spec c now d :
  data c = Some d ->
  cacheFresh c now = true <-> (now - fetchedAt c < ttlMs c)%Z.
Proof. unfold cacheFresh. intros ->. apply Z.ltb_lt. Qed.

Lemma scrape_fresh w d :
  data (CACHE w) = Some d -> cacheFresh (CACHE w) (clock w) = true ->
  ServerJs.scrapeUsedPaddles w = (Ok d, w) /\
  RetryRev.scrapeUsedPaddles w = (Ok d, w).
Proof.
  intros D F.
  unfold ServerJs.scrapeUsedPaddles, RetryRev.scrapeUsedPaddles, bind,
    dateNow, getCache.
  rewrite F, D. split; reflexivity.
Qed.

Lemma scrape_stale_fetches w :
  cacheFresh (CACHE w) (clock w) = false ->
  fetches w < fetches (snd (ServerJs.scrapeUsedPaddles w)) /\
  fetches w < fetches (snd (RetryRev.scrapeUsedPaddles w)).
Proof.
  intros F.
  unfold ServerJs.scrapeUsedPaddles, RetryRev.scrapeUsedPaddles, bind,
    dateNow, getCache, tryCatch.
  rewrite F. split.
  - destruct (serverjs_refresh_counts (clock w) w) as [C _].
    destruct (ServerJs.refresh (clock w) w) as [[a|e] w1]; cbn in *; lia.
  - destruct (retryrev_refresh_counts (clock w) w) as [C _].
    destruct (RetryRev.refresh (clock w) w) as [[a|e] w1]; cbn [fst snd] in *;
      [lia|].
    destruct (data (CACHE w1)); cbn; lia.
Qed.

(** C5.  With a catalog in the cache, [scrapeUsedPaddles] (all revisions)
    answers with that catalog and touches nothing, calling [fetch] not once,
    exactly when [now - fetchedAt < ttlMs]; otherwise it calls [fetch].  With
    [ttlMs = 300000] the lookup at [fetchedAt + 299999] is a hit and the one
    at [fetchedAt + 300001] calls [fetch]. *)
Theorem scrapeUsedPaddles_hit_exactly_within_ttl :
  (forall w d,
     data (CACHE w) = Some d ->
     let fresh := (clock w - fetchedAt (CACHE w) < ttlMs (CACHE w))%Z in
     (ServerJs.scrapeUsedPaddles w = (Ok d, w) <-> fresh) /\
     (RetryRev.scrapeUsedPaddles w = (Ok d, w) <-> fresh) /\
     (~ fresh ->
      fetches w < fetches (snd (ServerJs.scrapeUsedPaddles w)) /\
      fetches w < fetches (snd (RetryRev.scrapeUsedPaddles w)))) /\
  (forall w d,
     data (CACHE w) = Some d -> ttlMs (CACHE w) = 300000%Z ->
     (clock w = (fetchedAt (CACHE w) + 299999)%Z ->
      ServerJs.scrapeUsedPaddles w = (Ok d, w) /\
      RetryRev.scrapeUsedPaddles w = (Ok d, w)) /\
     (clock w = (fetchedAt (CACHE w) + 300001)%Z ->
      fetches w < fetches (snd (ServerJs.scrapeUsedPaddles w)) /\
      fetches w < fetches (snd (RetryRev.scrapeUsedPaddles w)))).
Proof.
  assert (G : forall w d, data (CACHE w) = Some d ->
     let fresh := (clock w - fetchedAt (CACHE w) < ttlMs (CACHE w))%Z in
     (ServerJs.scrapeUsedPaddles w = (Ok d, w) <-> fresh) /\
     (RetryRev.scrapeUsedPaddles w = (Ok d, w) <-> fresh) /\
     (~ fresh ->
      fetches w < fetches (snd (ServerJs.scrapeUsedPaddles w)) /\
      fetches w < fetches (snd (RetryRev.scrapeUsedPaddles w)))).
  { intros w d D fresh.
    pose proof (cacheFresh_spec (CACHE w) (clock w) D) as S. fold fresh in S.
    destruct (cacheFresh (CACHE w) (clock w)) eqn:F.
    - assert (Hf : fresh) by (apply S; reflexivity).
      destruct (scrape_fresh w D F) as [E1 E2].
      split; [tauto|]. split; [tauto|]. intros N. contradiction.
    - assert (Hn : ~ fresh) by (intros Hf; apply S in Hf; discriminate).
      destruct (scrape_stale_fetches w F) as [L1 L2].
      split; [|split; [|auto]]; (split; [|tauto]); intros E; exfalso.
      + rewrite E in L1. cbn in L1. lia.
      + rewrite E in L2. cbn in L2. lia. }
  split; [exact G|].
  intros w d D T. destruct (G w d D) as (G1 & G2 & G3). split.
  - intros C. split; [apply G1 | apply G2]; rewrite T, C; lia.
  - intros C. apply G3. rewrite T, C. lia.
Qed.

(** The hit of C5 at [fetchedAt + 299999] in a concrete world. *)
Lemma scrapeUsedPaddles_hit_witness :
  ServerJs.scrapeUsedPaddles (populated 300999 down)
    = (Ok [paddle], populated 300999 down) /\
  RetryRev.scrapeUsedPaddles (populated 300999 down)
    = (Ok [paddle], populated 300999 down).
Proof.
  apply (proj2 scrapeUsedPaddles_hit_exactly_within_ttl
           (populated 300999 down) [paddle]); reflexivity.
Defined.

(** In [server.js] the [catch] rethrows: a failed refresh is an error of
    [scrapeUsedPaddles] also when the cache holds a catalog. *)
Lemma serverjs_scrape_rethrows w e w' :
  cacheFresh (CACHE w) (clock w) = false ->
  ServerJs.refresh (clock w) w = (Throw e, w') ->
  ServerJs.scrapeUsedPaddles w = (Throw e, w').
Proof.
  intros F R.
  unfold ServerJs.scrapeUsedPaddles, bind, dateNow, getCache, tryCatch.
  rewrite F, R. reflexivity.
Qed.

(** C1 as stated fails in [server.js]: with a catalog in the cache, the
    cache expired and the upstream down, the refresh throws and
    [scrapeUsedPaddles] throws the same error instead of returning the
    catalog. *)
Lemma scrapeUsedPaddles_serverjs_no_fallback :
  data (CACHE (populated 400000 down)) = Some [paddle] /\
  cacheFresh (CACHE (populated 400000 down)) 400000 = false /\
  fst (ServerJs.refresh 400000 (populated 400000 down))
  = Throw (ErrNetwork (lit "ECONNRESET")) /\
  fst (ServerJs.scrapeUsedPaddles (populated 400000 down))
  = Throw (ErrNetwork (lit "ECONNRESET")).
Proof. vm_compute. repeat split; reflexivity. Defined.

(** C1, amended.  In the retry revisions, when the cache is not fresh and
    the refresh throws, [scrapeUsedPaddles] answers with the catalog held in
    the cache if there is one, and throws the error of the refresh if there
    is none.  In [server.js], whose [catch] only logs and rethrows, it throws
    the error of the refresh whether the cache holds a catalog or not.  In
    every revision [CACHE] is left as it was. *)
Theorem scrapeUsedPaddles_stale_fallback :
  (forall w e w',
     cacheFresh (CACHE w) (clock w) = false ->
     RetryRev.refresh (clock w) w = (Throw e, w') ->
     CACHE w' = CACHE w /\
     (forall d, data (CACHE w) = Some d ->
        RetryRev.scrapeUsedPaddles w = (Ok d, w')) /\
     (data (CACHE w) = None ->
        RetryRev.scrapeUsedPaddles w = (Throw e, w'))) /\
  (forall w e w',
     cacheFresh (CACHE w) (clock w) = false ->
     ServerJs.refresh (clock w) w = (Throw e, w') ->
     CACHE w' = CACHE w /\
     ServerJs.scrapeUsedPaddles w = (Throw e, w')).
Proof.
  split.
  - intros w e w' F R.
    destruct (retryrev_refresh_counts (clock w) w) as [_ C].
    specialize (C _ _ R).
    unfold RetryRev.scrapeUsedPaddles, bind, dateNow, getCache, tryCatch.
    rewrite F, R. cbn. rewrite C. repeat split; auto.
    + intros d ->. reflexivity.
    + intros ->. reflexivity.
  - intros w e w' F R. split.
    + destruct (serverjs_refresh_counts (clock w) w) as [_ C].
      exact (C _ _ R).
    + now apply serverjs_scrape_rethrows.
Qed.

(** C1 in a world whose cache has expired and whose upstream is down: in the
    retry revisions the three attempts fail and the stale catalog is the
    answer; in [server.js] the error of the one attempt is thrown. *)
Lemma scrapeUsedPaddles_stale_fallback_witness :
  (exists w',
     RetryRev.scrapeUsedPaddles (populated 400000 down) = (Ok [paddle], w') /\
     CACHE w' = CACHE (populated 400000 down) /\
     trace w' = [EvFetch; EvWait 3000; EvFetch; EvWait 6000; EvFetch]) /\
  (exists w',
     ServerJs.scrapeUsedPaddles (populated 400000 down)
     = (Throw (ErrNetwork (lit "ECONNRESET")), w') /\
     CACHE w' = CACHE (populated 400000 down)).
Proof.
  split.
  - eexists.
    destruct (proj1 scrapeUsedPaddles_stale_fallback (populated 400000 down)
                (ErrNetwork (lit "ECONNRESET")) _ eq_refl eq_refl)
      as (C & S & _).
    split; [apply S; reflexivity|]. split; [exact C | reflexivity].
  - eexists.
    destruct (proj2 scrapeUsedPaddles_stale_fallback (populated 400000 down)
                (ErrNetwork (lit "ECONNRESET")) _ eq_refl eq_refl)
      as (C & S).
    split; [exact S | exact C].
Defined.

(** ** The retry loop *)

(** On such a status the [throw] inside the [try] lands in the [catch] of
    the same turn: before the last turn the loop waits and goes on, on the
    last turn it throws. *)
Lemma attempt_otherFailure retries i w res :
  upstream w (fetches w) = Responds res -> otherFailure res ->
  RetryRev.attempt retries i w =
  if i =? retries - 1
  then (Throw (ErrHttp (status res)), snd (fetch w))
  else (Ok RetryRev.Continue, snd (wait (3000 * (Z.of_nat i + 1)) (snd (fetch w)))).
Proof.
  intros U (O & N & L).
  unfold RetryRev.attempt, tryCatch, bind, fetch. rewrite U. cbn [snd].
  apply Z.eqb_neq in N. apply Z.leb_gt in L. rewrite N, L, O. cbn.
  destruct (i =? retries - 1); reflexivity.
Qed.

(** C7, at a 404 followed by a 200: [fetchWithRetry] does not fail on the
    404; it waits 3000 ms, calls [fetch] again and returns the second
    response. *)
Theorem fetchWithRetry_retries_after_404 :
  let w0 := mkWorld initialCache 0 notFoundThenFine 0 [] in
  fst (RetryRev.fetchWithRetry 3 w0) = Ok (Some (mkResponse 200 [])) /\
  trace (snd (RetryRev.fetchWithRetry 3 w0)) = [EvFetch; EvWait 3000; EvFetch] /\
  otherFailure (mkResponse 404 []).
Proof.
  repeat split; try reflexivity; try discriminate.
Qed.

(** ** The offer *)

(** C4.  The two midpoints named by the claim give the offers it names:
    135.00 gives 67.50 and 99.995 gives 50.00.  At the price text ["$69.99"]
    the midpoint is the double 69.99 and the offer computed is the double
    34.99, while half of 69.99 is 34.995, which rounds half-up to 3500
    cents: in double arithmetic [(mid * 0.5 + EPSILON) * 100] is
    3499.4999999999995 there and [Math.round] takes it down. *)
Theorem fixedOffer_misses_half_up_at_69_99 :
  (option_map mid (priceParse (lit "$120.00 - $150.00")) = Some (ofInt 135) /\
   offerFor (lit "$120.00 - $150.00") = Some (parseFloat (lit "67.50"))) /\
  (option_map mid (priceParse (lit "$99.99 $100.00"))
     = Some (nearestRatio 99995 1000) /\
   offerFor (lit "$99.99 $100.00") = Some (parseFloat (lit "50.00"))) /\
  (option_map mid (priceParse (lit "$69.99")) = Some (parseFloat (lit "69.99")) /\
   offerFor (lit "$69.99") = Some (parseFloat (lit "34.99")) /\
   halfUpCents 6999 6999 = 3500%Z /\
   centsOf (lit "34.99") = 3499%Z).
Proof. vm_compute. repeat split; reflexivity. Qed.

(** The end-to-end test of the specification in both revisions: the listing
    is found and the offer is 100.00. *)
Lemma offer_end_to_end_example :
  let echo := mkEcho (lit "perseus pro 4") (lit "good") [] in
  let expected :=
    Offered (parseFloat (lit "100.00")) (lit "$199.99")
      (lit "Joola Perseus Pro IV") echo in
  fst (ServerJs.offer perseusRequest (emptyWorld perseusUpstream)) = expected /\
  fst (RetryRev.offer perseusRequest (emptyWorld perseusUpstream)) = expected.
Proof. vm_compute. split; reflexivity. Qed.

(** ** A model of white space only *)

Lemma collapseFrom_white s :
  forallb isWhite s = true -> collapseFrom true s = [].
Proof.
  induction s as [|c r IH]; cbn [forallb collapseFrom]; auto.
  intros H. apply andb_prop in H as [W H]. rewrite W. auto.
Qed.

Lemma normalize_white s : forallb isWhite s = true -> normalize s = [].
Proof.
  intros H. unfold normalize, collapseWhite, toLowerCase.
  assert (H' : forallb isWhite (map toLowerChar s) = true).
  { rewrite forallb_forall in *. intros c I.
    apply in_map_iff in I as (c0 & <- & I0).
    rewrite toLowerChar_white. auto. }
  destruct (map toLowerChar s) as [|c r]; [reflexivity|].
  cbn [forallb] in H'. apply andb_prop in H' as [W H'].
  cbn [collapseFrom]. rewrite W, (collapseFrom_white _ H').
  unfold trim. cbn. reflexivity.
Qed.

Lemma bestMatch_white m dataset :
  forallb isWhite m = true ->
  ServerJs.bestMatch m dataset = None /\ RetryRev.bestMatch m dataset = None.
Proof.
  intros H. unfold ServerJs.bestMatch, RetryRev.bestMatch.
  rewrite (normalize_white _ H). split; reflexivity.
Qed.

(** C10 as stated fails when the catalog cannot be had: with nothing in the
    cache and the upstream down, a request whose model is three spaces is
    answered with status 500 by every revision. *)
Lemma offer_blank_model_upstream_down :
  present (model blankRequest) = true /\
  present (condition blankRequest) = true /\
  forallb isWhite (orEmpty (model blankRequest)) = true /\
  fst (ServerJs.offer blankRequest (emptyWorld down)) = Failed /\
  fst (RetryRev.offer blankRequest (emptyWorld down)) = Failed.
Proof. vm_compute. repeat split; reflexivity. Defined.

(** C10, amended.  A request whose model is a non-empty string of white
    space, with a condition, passes the validation; the matcher normalizes
    the model to the empty string and finds nothing, so whenever
    [scrapeUsedPaddles] returns a catalog the response is the success with
    [found: false] and no offer, and when it throws the response is the
    failure of status 500; it is never the validation failure. *)
Theorem offer_blank_model_not_found (req : Request) (m c : jsstring) (w : World) :
  model req = Some m -> m <> [] -> forallb isWhite m = true ->
  condition req = Some c -> c <> [] ->
  let echo := mkEcho m c (orEmpty (notes req)) in
  normalize m = [] /\
  (forall dataset,
     ServerJs.bestMatch m dataset = None /\
     RetryRev.bestMatch m dataset = None) /\
  (fst (ServerJs.offer req w) =
     match fst (ServerJs.scrapeUsedPaddles w) with
     | Ok _ => NotFound echo
     | Throw _ => Failed
     end) /\
  (fst (RetryRev.offer req w) =
     match fst (RetryRev.scrapeUsedPaddles w) with
     | Ok _ => NotFound echo
     | Throw _ => Failed
     end) /\
  fst (ServerJs.offer req w) <> BadRequest /\
  fst (RetryRev.offer req w) <> BadRequest.
Proof.
  intros Hm Nm Wm Hc Nc echo.
  assert (S : fst (ServerJs.offer req w) =
     match fst (ServerJs.scrapeUsedPaddles w) with
     | Ok _ => NotFound echo | Throw _ => Failed end).
  { unfold ServerJs.offer, offerHandler. rewrite Hm, Hc. cbn [present orEmpty].
    rewrite (truthy_nonempty Nm), (truthy_nonempty Nc). cbn [negb orb].
    destruct (ServerJs.scrapeUsedPaddles w) as [[ds|e] w']; cbn [fst]; auto.
    destruct (bestMatch_white m ds Wm) as [-> _]. reflexivity. }
  assert (R : fst (RetryRev.offer req w) =
     match fst (RetryRev.scrapeUsedPaddles w) with
     | Ok _ => NotFound echo | Throw _ => Failed end).
  { unfold RetryRev.offer, offerHandler. rewrite Hm, Hc. cbn [present orEmpty].
    rewrite (truthy_nonempty Nm), (truthy_nonempty Nc). cbn [negb orb].
    destruct (RetryRev.scrapeUsedPaddles w) as [[ds|e] w']; cbn [fst]; auto.
    destruct (bestMatch_white m ds Wm) as [_ ->]. reflexivity. }
  split; [exact (normalize_white m Wm)|].
  split; [intros ds; exact (bestMatch_white m ds Wm)|].
  split; [exact S|]. split; [exact R|]. split; intros E.
  - rewrite S in E. destruct (fst (ServerJs.scrapeUsedPaddles w)); discriminate.
  - rewrite R in E. destruct (fst (RetryRev.scrapeUsedPaddles w)); discriminate.
Qed.

(** C10 at a request of three spaces against an upstream that answers. *)
Lemma offer_blank_model_witness :
  fst (ServerJs.offer blankRequest (emptyWorld oneListing))
    = NotFound (mkEcho (lit "   ") (lit "good") []) /\
  fst (RetryRev.offer blankRequest (emptyWorld oneListing))
    = NotFound (mkEcho (lit "   ") (lit "good") []).
Proof.
  destruct (@offer_blank_model_not_found blankRequest (lit "   ") (lit "good")
              (emptyWorld oneListing) eq_refl ltac:(discriminate) eq_refl
              eq_refl ltac:(discriminate)) as (_ & _ & S & R & _).
  split; [exact S | exact R].
Defined.

(** ** The expression [[\d]+\.\d{2}] *)

Lemma spanDigits_split s :
  s = fst (spanDigits s) ++ snd (spanDigits s) /\
  forallb isDigit (fst (spanDigits s)) = true /\
  stopsDigits (snd (spanDigits s)).
Proof.
  induction s as [|c r IH]; cbn [spanDigits].
  - repeat split.
  - destruct (isDigit c) eqn:D.
    + destruct (spanDigits r) as [ds rest]. cbn [fst snd] in *.
      destruct IH as (E & F & S). repeat split; auto.
      * cbn. now rewrite <- E.
      * cbn. now rewrite D, F.
    + repeat split. exact D.
Qed.

Lemma spanDigits_app ds rest :
  forallb isDigit ds = true -> stopsDigits rest ->
  spanDigits (ds ++ rest) = (ds, rest).
Proof.
  induction ds as [|c r IH]; cbn [app forallb].
  - intros _ S. destruct rest as [|c r]; cbn in *; [reflexivity|].
    now rewrite S.
  - intros H S. apply andb_prop in H as [D H]. cbn [spanDigits].
    now rewrite D, (IH H S).
Qed.

Lemma matchAt_sound s m :
  matchAt s = Some m -> priceShaped m /\ exists rest, s = m ++ rest.
Proof.
  unfold matchAt. destruct (spanDigits_split s) as (E & F & _).
  destruct (spanDigits s) as [ds rest]. cbn [fst snd] in *.
  destruct ds as [|d ds]; [discriminate|].
  destruct rest as [|dot [|a [|b rest]]]; try discriminate.
  destruct (isDot dot) eqn:Dot; [|discriminate].
  destruct (isDigit a) eqn:Da; [|discriminate].
  destruct (isDigit b) eqn:Db; [|discriminate].
  cbn [andb]. intros [= <-].
  unfold isDot in Dot. destruct (ascii_dec dot "."%char) as [->|]; [|discriminate].
  split.
  - exists (d :: ds), a, b. repeat split; auto. discriminate.
  - exists rest. rewrite E. cbn [app]. f_equal.
    rewrite <- app_assoc. reflexivity.
Qed.

Lemma matchAt_complete m post : priceShaped m -> matchAt (m ++ post) = Some m.
Proof.
  intros (ds & a & b & -> & N & F & Da & Db).
  unfold matchAt. rewrite <- app_assoc.
  rewrite (spanDigits_app ds (["."%char; a; b] ++ post) F) by reflexivity.
  destruct ds as [|d ds]; [congruence|].
  cbn [app]. unfold isDot.
  destruct (ascii_dec "."%char "."%char); [|congruence].
  now rewrite Da, Db.
Qed.

Lemma scanFrom_nil_iff s :
  scanFrom 0 s = [] <-> forall pre t, s = pre ++ t -> matchAt t = None.
Proof.
  induction s as [|c r IH]; cbn [scanFrom].
  - split; auto. intros _ pre t E. symmetry in E.
    apply app_eq_nil in E as [_ ->]. reflexivity.
  - split.
    + intros H pre t E.
      destruct (matchAt (c :: r)) eqn:M; [discriminate|].
      destruct pre as [|c' pre]; cbn in E.
      * now subst t.
      * injection E as -> E. apply (proj1 IH H pre t E).
    + intros H. rewrite (H [] (c :: r) eq_refl).
      apply IH. intros pre t E. apply (H (c :: pre) t). cbn. now rewrite E.
Qed.

Lemma containsPrice_iff text :
  containsPrice text <->
  exists pre t m, text = pre ++ t /\ matchAt t = Some m.
Proof.
  split.
  - intros (pre & m & post & -> & S).
    exists pre, (m ++ post), m. split; auto using matchAt_complete.
  - intros (pre & t & m & -> & M).
    destruct (matchAt_sound _ M) as (S & rest & ->).
    exists pre, m, rest. auto.
Qed.

(** [match] gives [null] exactly when no substring has the form. *)
Lemma matchAll_nil_iff text : matchAll text = [] <-> ~ containsPrice text.
Proof.
  unfold matchAll. rewrite scanFrom_nil_iff, containsPrice_iff. split.
  - intros H (pre & t & m & E & M). rewrite (H pre t E) in M. discriminate.
  - intros H pre t E. destruct (matchAt t) as [m|] eqn:M; auto.
    exfalso. apply H. exists pre, t, m. auto.
Qed.

(** Every extracted text is a substring of the form. *)
Lemma scanFrom_shaped s : forall skip m,
  In m (scanFrom skip s) ->
  priceShaped m /\ exists pre post, s = pre ++ m ++ post.
Proof.
  induction s as [|c r IH]; intros skip m; cbn [scanFrom]; [intros []|].
  assert (K : forall k, In m (scanFrom k r) ->
            priceShaped m /\ exists pre post, c :: r = pre ++ m ++ post).
  { intros k I. destruct (IH k m I) as (S & pre & post & ->).
    split; auto. exists (c :: pre), post. reflexivity. }
  destruct skip as [|k]; [|apply K].
  destruct (matchAt (c :: r)) as [m0|] eqn:M; [|apply K].
  intros [<-|I]; [|eapply K; eauto].
  destruct (matchAt_sound _ M) as (S & rest & E).
  split; auto. exists [], rest. exact E.
Qed.

(** ** The order of the numbers that [parseFloat] yields *)

Lemma numLe_refl x : plain x = true -> numLe x x = true.
Proof.
  unfold numLe, SFleb. intros P. plain_cases.
  rewrite Z.compare_refl.
  change (Pos.compare_cont Eq m m) with (Pos.compare m m).
  now rewrite Pos.compare_refl.
Qed.

Lemma numLe_trans x y z :
  plain x = true -> plain y = true -> plain z = true ->
  numLe x y = true -> numLe y z = true -> numLe x z = true.
Proof.
  unfold numLe, SFleb. intros Px Py Pz Hxy Hyz. plain_cases; cmp_cases.
Qed.

Lemma numLt_false_le x y :
  plain x = true -> plain y = true -> numLt x y = false -> numLe y x = true.
Proof.
  unfold numLt, numLe, SFltb, SFleb. intros Px Py H. plain_cases; cmp_cases.
Qed.

Lemma numLt_true_le x y : numLt x y = true -> numLe x y = true.
Proof.
  unfold numLt, numLe, SFltb, SFleb.
  destruct (SFcompare x y) as [[| |]|]; auto.
Qed.

Lemma plain_not_nan nums :
  Forall (fun v => plain v = true) nums -> existsb isNaN nums = false.
Proof.
  induction 1 as [|v r P _ IH]; cbn; auto. rewrite IH.
  destruct v; try discriminate; reflexivity.
Qed.

Lemma minStep_plain acc n :
  plain acc = true -> plain n = true ->
  (minStep acc n = acc \/ minStep acc n = n) /\
  numLe (minStep acc n) acc = true /\ numLe (minStep acc n) n = true.
Proof.
  intros Pa Pn. unfold minStep.
  replace (isZero true n) with false by (destruct n as [[|]| | |]; auto; discriminate).
  cbn [andb orb]. destruct (numLt n acc) eqn:L.
  - repeat split; auto using numLt_true_le, numLe_refl.
  - repeat split; auto using numLt_false_le, numLe_refl.
Qed.

Lemma maxStep_plain acc n :
  plain acc = true -> plain n = true ->
  (maxStep acc n = acc \/ maxStep acc n = n) /\
  numLe acc (maxStep acc n) = true /\ numLe n (maxStep acc n) = true.
Proof.
  intros Pa Pn. unfold maxStep.
  replace (isZero true acc) with false
    by (destruct acc as [[|]| | |]; auto; discriminate).
  rewrite andb_false_r. cbn [orb]. destruct (numLt acc n) eqn:L.
  - repeat split; auto using numLt_true_le, numLe_refl.
  - repeat split; auto using numLt_false_le, numLe_refl.
Qed.

Lemma fold_minStep nums : forall acc,
  plain acc = true -> Forall (fun v => plain v = true) nums ->
  let r := fold_left minStep nums acc in
  plain r = true /\ (r = acc \/ In r nums) /\ numLe r acc = true /\
  forall v, In v nums -> numLe r v = true.
Proof.
  induction nums as [|n rest IH]; intros acc Pa F; cbn [fold_left].
  - repeat split; auto using numLe_refl; intros v [].
  - inversion F as [|? ? Pn F']; subst.
    destruct (minStep_plain acc n Pa Pn) as (C & La & Ln).
    assert (Ps : plain (minStep acc n) = true) by (destruct C as [->| ->]; auto).
    destruct (IH (minStep acc n) Ps F') as (Pr & I & L & A).
    set (r := fold_left minStep rest (minStep acc n)) in *.
    assert (Pv : forall v, In v rest -> plain v = true)
      by (apply Forall_forall; exact F').
    repeat split; auto.
    + destruct I as [E|I]; [|right; right; exact I].
      destruct C as [C|C]; rewrite C in E; [left | right; left]; congruence.
    + apply numLe_trans with (y := minStep acc n); auto.
    + intros v [<-|I']; auto.
      apply numLe_trans with (y := minStep acc n); auto.
Qed.

Lemma fold_maxStep nums : forall acc,
  plain acc = true -> Forall (fun v => plain v = true) nums ->
  let r := fold_left maxStep nums acc in
  plain r = true /\ (r = acc \/ In r nums) /\ numLe acc r = true /\
  forall v, In v nums -> numLe v r = true.
Proof.
  induction nums as [|n rest IH]; intros acc Pa F; cbn [fold_left].
  - repeat split; auto using numLe_refl; intros v [].
  - inversion F as [|? ? Pn F']; subst.
    destruct (maxStep_plain acc n Pa Pn) as (C & La & Ln).
    assert (Ps : plain (maxStep acc n) = true) by (destruct C as [->| ->]; auto).
    destruct (IH (maxStep acc n) Ps F') as (Pr & I & L & A).
    set (r := fold_left maxStep rest (maxStep acc n)) in *.
    assert (Pv : forall v, In v rest -> plain v = true)
      by (apply Forall_forall; exact F').
    repeat split; auto.
    + destruct I as [E|I]; [|right; right; exact I].
      destruct C as [C|C]; rewrite C in E; [left | right; left]; congruence.
    + apply numLe_trans with (y := maxStep acc n); auto.
    + intros v [<-|I']; auto.
      apply numLe_trans with (y := maxStep acc n); auto.
Qed.

(** [Math.min] and [Math.max] of plain numbers: a member of the list that
    bounds all of it. *)
Lemma mathMin_plain v rest :
  Forall (fun x => plain x = true) (v :: rest) ->
  In (mathMin (v :: rest)) (v :: rest) /\
  (forall x, In x (v :: rest) -> numLe (mathMin (v :: rest)) x = true) /\
  (rest = [] -> mathMin (v :: rest) = v).
Proof.
  intros F. unfold mathMin. rewrite (plain_not_nan F).
  inversion F as [|? ? Pv F']; subst. cbn [fold_left].
  assert (E : minStep (S754_infinity false) v = v)
    by (destruct v as [[|]|[|]| |[|] ? ?]; try discriminate; reflexivity).
  rewrite E. destruct (@fold_minStep rest v Pv F') as (_ & I & L & A).
  repeat split.
  - destruct I as [->|I]; [now left | now right].
  - intros x [<-|I']; auto.
  - intros ->. reflexivity.
Qed.

Lemma mathMax_plain v rest :
  Forall (fun x => plain x = true) (v :: rest) ->
  In (mathMax (v :: rest)) (v :: rest) /\
  (forall x, In x (v :: rest) -> numLe x (mathMax (v :: rest)) = true) /\
  (rest = [] -> mathMax (v :: rest) = v).
Proof.
  intros F. unfold mathMax. rewrite (plain_not_nan F).
  inversion F as [|? ? Pv F']; subst. cbn [fold_left].
  assert (E : maxStep (S754_infinity true) v = v)
    by (destruct v as [[|]|[|]| |[|] ? ?]; try discriminate; reflexivity).
  rewrite E. destruct (@fold_maxStep rest v Pv F') as (_ & I & L & A).
  repeat split.
  - destruct I as [->|I]; [now left | now right].
  - intros x [<-|I']; auto.
  - intros ->. reflexivity.
Qed.

(** ** The rounding of [binary_round_aux] yields valid doubles *)

Unset Implicit Arguments.
Local Open Scope Z_scope.

Lemma digits2_pos_size p : digits2_pos p = Pos.size p.
Proof. induction p; cbn; congruence. Qed.

Lemma Zdigits2_log2 m : 0 < m -> Zdigits2 m = Z.log2 m + 1.
Proof.
  destruct m as [|p|p]; try lia. intros _. cbn [Zdigits2].
  rewrite digits2_pos_size. destruct p; cbn; lia.
Qed.

Lemma Zdigits2_nonneg m : 0 <= Zdigits2 m.
Proof. destruct m; cbn; lia. Qed.

Lemma Zdigits2_mono a b : 0 <= a -> a <= b -> Zdigits2 a <= Zdigits2 b.
Proof.
  intros Ha Hab. destruct (Z.eq_dec a 0) as [->|Na].
  - apply Zdigits2_nonneg.
  - rewrite !Zdigits2_log2 by lia.
    pose proof (Z.log2_le_mono a b Hab). lia.
Qed.

Lemma Zdigits2_shiftr m n :
  0 <= m -> 0 <= n -> Zdigits2 (Z.shiftr m n) = Z.max 0 (Zdigits2 m - n).
Proof.
  intros Hm Hn. destruct (Z.eq_dec m 0) as [->|Nm].
  - rewrite Z.shiftr_0_l. cbn. lia.
  - assert (Pm : 0 < m) by lia.
    pose proof (Z.log2_nonneg m) as L0.
    rewrite (Zdigits2_log2 _ Pm).
    destruct (Z.eq_dec (Z.shiftr m n) 0) as [E|N].
    + rewrite E. cbn [Zdigits2].
      apply Z.shiftr_eq_0_iff in E as [E|[_ E]]; lia.
    + assert (P : 0 < Z.shiftr m n).
      { pose proof (proj2 (Z.shiftr_nonneg m n) Hm). lia. }
      rewrite (Zdigits2_log2 _ P), (Z.log2_shiftr m n Pm).
      assert (~ Z.log2 m < n).
      { intros C. apply N, Z.shiftr_eq_0_iff. right. split; auto. }
      lia.
Qed.

Lemma Zdigits2_shiftl m n :
  0 < m -> 0 <= n -> Zdigits2 (Z.shiftl m n) = Zdigits2 m + n.
Proof.
  intros Hm Hn.
  assert (P : 0 < Z.shiftl m n).
  { rewrite Z.shiftl_mul_pow2 by lia. apply Z.mul_pos_pos; auto.
    apply Z.pow_pos_nonneg; lia. }
  rewrite (Zdigits2_log2 _ P), (Zdigits2_log2 _ Hm), Z.log2_shiftl by lia. lia.
Qed.

Lemma fexp_mono a b : a <= b -> fexp prec emax a <= fexp prec emax b.
Proof. unfold fexp. lia. Qed.

Lemma fexp_ge_emin a : emin prec emax <= fexp prec emax a.
Proof. unfold fexp. lia. Qed.

Lemma shr_1_m r : 0 <= shr_m r -> shr_m (shr_1 r) = Z.shiftr (shr_m r) 1.
Proof.
  destruct r as [m rb sb]. cbn [shr_m]. intros H.
  rewrite <- Z.div2_spec.
  destruct m as [|[p|p|]|p]; try lia; reflexivity.
Qed.

Lemma iter_shr_1_m p : forall r,
  0 <= shr_m r ->
  shr_m (iter_pos shr_1 p r) = Z.shiftr (shr_m r) (Zpos p).
Proof.
  assert (N : forall a n, 0 <= a -> 0 <= Z.shiftr a n)
    by (intros a n Ha; now apply Z.shiftr_nonneg).
  induction p as [p IH|p IH|]; intros r H; cbn [iter_pos].
  - assert (H1 : 0 <= shr_m (shr_1 r)) by (rewrite shr_1_m; auto).
    assert (H2 : 0 <= shr_m (iter_pos shr_1 p (shr_1 r)))
      by (rewrite IH; auto).
    rewrite (IH _ H2), (IH _ H1), shr_1_m by auto.
    rewrite !Z.shiftr_shiftr by lia. f_equal. lia.
  - assert (H2 : 0 <= shr_m (iter_pos shr_1 p r)) by (rewrite IH; auto).
    rewrite (IH _ H2), (IH _ H).
    rewrite !Z.shiftr_shiftr by lia. f_equal. lia.
  - now apply shr_1_m.
Qed.

Lemma shr_m_of_loc m l : shr_m (shr_record_of_loc m l) = m.
Proof. destruct l as [|[| |]]; reflexivity. Qed.

(** The mantissa and the exponent after [shr_fexp]. *)
Lemma shr_fexp_value m e l :
  0 <= m ->
  let n := Z.max 0 (fexp prec emax (Zdigits2 m + e) - e) in
  shr_m (fst (shr_fexp prec emax m e l)) = Z.shiftr m n /\
  snd (shr_fexp prec emax m e l) = e + n.
Proof.
  intros Hm n. unfold shr_fexp, shr. subst n.
  destruct (fexp prec emax (Zdigits2 m + e) - e) as [|p|p] eqn:E;
    cbn [fst snd].
  - rewrite shr_m_of_loc, Z.shiftr_0_r. split; lia.
  - rewrite iter_shr_1_m by (now rewrite shr_m_of_loc).
    rewrite shr_m_of_loc. split; [f_equal|]; lia.
  - rewrite shr_m_of_loc. replace (Z.max 0 (Z.neg p)) with 0 by lia.
    rewrite Z.shiftr_0_r. split; lia.
Qed.

Lemma shr_fexp_canon m e l :
  0 <= m -> e <= fexp prec emax (Zdigits2 m + e) ->
  0 <= shr_m (fst (shr_fexp prec emax m e l)) /\
  canon (shr_m (fst (shr_fexp prec emax m e l)))
        (snd (shr_fexp prec emax m e l)).
Proof.
  intros Hm He. destruct (shr_fexp_value m e l Hm) as [-> ->].
  set (n := Z.max 0 (fexp prec emax (Zdigits2 m + e) - e)).
  assert (Hn : 0 <= n) by lia.
  assert (En : e + n = fexp prec emax (Zdigits2 m + e)) by lia.
  pose proof (proj2 (Z.shiftr_nonneg m n) Hm) as P.
  pose proof (Zdigits2_shiftr m n Hm Hn) as D.
  split; auto. unfold canon.
  destruct (Z.eq_dec (Z.shiftr m n) 0) as [Z0|NZ].
  - right. split; auto. rewrite Z0 in D. cbn [Zdigits2] in D.
    revert En. unfold fexp, emin, prec, emax in *. lia.
  - left. split; [lia|].
    assert (0 < Zdigits2 (Z.shiftr m n)).
    { rewrite Zdigits2_log2 by lia. pose proof (Z.log2_nonneg (Z.shiftr m n)). lia. }
    replace (Zdigits2 (Z.shiftr m n) + (e + n)) with (Zdigits2 m + e) by lia.
    lia.
Qed.

Lemma round_nearest_even_bounds m l :
  m <= round_nearest_even m l <= m + 1.
Proof.
  destruct l as [|[| |]]; cbn; try lia. destruct (Z.even m); lia.
Qed.

(** What [binary_round_aux] returns for a mantissa that is not below its
    canonical exponent: a valid double, of the sign asked for. *)
Lemma binary_round_aux_valid sx mx ex lx :
  0 <= mx -> ex <= fexp prec emax (Zdigits2 mx + ex) ->
  valid_binary prec emax (binary_round_aux prec emax sx mx ex lx) = true /\
  (sx = false -> plain (binary_round_aux prec emax sx mx ex lx) = true).
Proof.
  intros Hm He. unfold binary_round_aux.
  destruct (shr_fexp_canon mx ex lx Hm He) as [P1 C1].
  destruct (shr_fexp prec emax mx ex lx) as [mrs1 e1]. cbn [fst snd] in *.
  set (m1 := shr_m mrs1) in *.
  set (m1' := round_nearest_even m1 (loc_of_shr_record mrs1)).
  pose proof (round_nearest_even_bounds m1 (loc_of_shr_record mrs1)) as B.
  fold m1' in B.
  assert (P1' : 0 <= m1') by lia.
  assert (He1 : e1 <= fexp prec emax (Zdigits2 m1' + e1)).
  { destruct C1 as [[Pm C]|[_ ->]]; [|apply fexp_ge_emin].
    rewrite <- C at 1. apply fexp_mono.
    pose proof (Zdigits2_mono m1 m1' P1 (proj1 B)). lia. }
  destruct (shr_fexp_canon m1' e1 loc_Exact P1' He1) as [P2 C2].
  destruct (shr_fexp prec emax m1' e1 loc_Exact) as [mrs2 e2].
  cbn [fst snd] in *.
  destruct (shr_m mrs2) as [|m2|m2] eqn:E2; try lia.
  - split; [reflexivity | intros ->; reflexivity].
  - destruct (e2 <=? emax - prec) eqn:Le.
    + split; [|intros ->; reflexivity].
      cbn [valid_binary]. unfold bounded, canonical_mantissa.
      rewrite Le, andb_true_r. apply Z.eqb_eq.
      destruct C2 as [[_ C]|[C _]]; [exact C | discriminate].
    + split; [reflexivity | intros ->; reflexivity].
Qed.

Lemma div_eucl_fst a b : fst (Z.div_eucl a b) = a / b.
Proof. unfold Z.div. now destruct (Z.div_eucl a b). Qed.

(** The quotient that [SFdiv] hands to the rounding when an integer is
    divided by 100 has digits enough. *)
Lemma nearestRatio_valid n :
  valid_binary prec emax (nearestRatio n 100) = true /\
  plain (nearestRatio n 100) = true.
Proof.
  destruct n as [|p|p]; try (split; reflexivity).
  unfold nearestRatio, SFdiv, SFdiv_core_binary.
  set (d1 := Zdigits2 (Z.pos p)).
  change (Zdigits2 100) with 7.
  set (e' := Z.min (fexp prec emax (d1 + 0 - (7 + 0))) (0 - 0)).
  set (s := 0 - 0 - e').
  set (m' := match s with
             | 0 => Z.pos p
             | Z.pos _ => Z.shiftl (Z.pos p) s
             | Z.neg _ => 0
             end).
  assert (Hs : 0 <= s) by (unfold s, e'; lia).
  assert (Em : m' = Z.shiftl (Z.pos p) s).
  { unfold m'. destruct s; try lia; auto. }
  assert (Pm : 0 < m').
  { rewrite Em, Z.shiftl_mul_pow2 by lia.
    apply Z.mul_pos_pos; [lia | apply Z.pow_pos_nonneg; lia]. }
  pose proof (div_eucl_fst m' 100) as Q.
  destruct (Z.div_eucl m' 100) as [q r]. cbn [fst] in Q. subst q.
  assert (Hq : 0 <= m' / 100) by (apply Z.div_pos; lia).
  assert (He : e' <= fexp prec emax (Zdigits2 (m' / 100) + e')).
  { apply Z.le_trans with (fexp prec emax (d1 + 0 - (7 + 0)));
      [unfold e'; lia|].
    apply fexp_mono.
    assert (L : Z.shiftr m' 7 <= m' / 100).
    { rewrite Z.shiftr_div_pow2 by lia. change (2 ^ 7) with 128.
      apply Z.div_le_compat_l; lia. }
    pose proof (Zdigits2_mono (Z.shiftr m' 7) (m' / 100)
                  (proj2 (Z.shiftr_nonneg m' 7) (Z.lt_le_incl _ _ Pm)) L) as D.
    rewrite Zdigits2_shiftr in D by lia.
    rewrite Em, Zdigits2_shiftl in D by lia.
    rewrite <- Em in D. fold d1 in D. clearbody m' d1. subst s e'. lia. }
  destruct (binary_round_aux_valid (xorb false false) (m' / 100) e'
              (new_location 100 r) Hq He) as [V P].
  split; [exact V | apply P; reflexivity].
Qed.

Lemma parseFloat_plain_valid m :
  plain (parseFloat m) = true /\ valid_binary prec emax (parseFloat m) = true.
Proof.
  unfold parseFloat. destruct (nearestRatio_valid (centsOf m)). auto.
Qed.

(** ** The midpoint of a single value *)

Lemma binary_round_aux_canonical m e :
  fexp prec emax (Zdigits2 (Z.pos m) + e) = e -> e <= emax - prec ->
  binary_round_aux prec emax false (Z.pos m) e loc_Exact
  = S754_finite false m e.
Proof.
  intros C B. unfold binary_round_aux, shr_fexp.
  rewrite C, Z.sub_diag. cbn [shr shr_record_of_loc shr_m loc_of_shr_record
    round_nearest_even].
  rewrite C, Z.sub_diag. cbn [shr shr_record_of_loc shr_m].
  apply Z.leb_le in B. now rewrite B.
Qed.

Lemma binary_round_aux_even m e :
  fexp prec emax (Zdigits2 (Z.pos m~0) + e) = e + 1 -> e + 1 <= emax - prec ->
  binary_round_aux prec emax false (Z.pos m~0) e loc_Exact
  = S754_finite false m (e + 1).
Proof.
  intros C B. unfold binary_round_aux, shr_fexp.
  replace (fexp prec emax (Zdigits2 (Z.pos m~0) + e) - e) with 1 by lia.
  cbn [shr iter_pos shr_1 shr_record_of_loc shr_m loc_of_shr_record
    round_nearest_even orb].
  assert (C' : fexp prec emax (Zdigits2 (Z.pos m) + (e + 1)) = e + 1).
  { transitivity (fexp prec emax (Zdigits2 (Z.pos m~0) + e)); [|exact C].
    f_equal. cbn [Zdigits2 digits2_pos]. lia. }
  rewrite C', Z.sub_diag. cbn [shr shr_record_of_loc shr_m].
  apply Z.leb_le in B. now rewrite B.
Qed.

Lemma div_eucl_mul a b : 0 < b -> Z.div_eucl (a * b) b = (a, 0).
Proof.
  intros Hb. pose proof (div_eucl_fst (a * b) b) as Q.
  assert (R : snd (Z.div_eucl (a * b) b) = (a * b) mod b)
    by (unfold Z.modulo; now destruct (Z.div_eucl (a * b) b)).
  destruct (Z.div_eucl (a * b) b) as [q r]. cbn [fst snd] in *.
  rewrite Z.div_mul in Q by lia. rewrite Z.mod_mul in R by lia. congruence.
Qed.

Lemma two_eq : two = S754_finite false 4503599627370496 (-51).
Proof. reflexivity. Qed.

Lemma digits_53_large m : Z.pos (digits2_pos m) = 53 -> 2 ^ 52 <= Z.pos m.
Proof.
  intros D. change (Z.pos (digits2_pos m)) with (Zdigits2 (Z.pos m)) in D.
  rewrite Zdigits2_log2 in D by lia.
  replace 52 with (Z.log2 (Z.pos m)) by lia.
  apply Z.log2_spec. lia.
Qed.

(** Halving the double of a positive finite double gives it back, as long
    as the doubling stays finite. *)
Lemma half_of_twice_finite m e :
  bounded prec emax m e = true -> e < emax - prec ->
  numDiv (numAdd (S754_finite false m e) (S754_finite false m e)) two
  = S754_finite false m e.
Proof.
  intros B Lt. unfold bounded, canonical_mantissa in B.
  apply andb_prop in B as [C _]. apply Z.eqb_eq in C.
  change (Z.pos (digits2_pos m)) with (Zdigits2 (Z.pos m)) in C.
  set (d := Zdigits2 (Z.pos m)) in *.
  assert (Dd : Zdigits2 (Z.pos m~0) = d + 1)
    by (unfold d; cbn [Zdigits2 digits2_pos]; lia).
  assert (Pd : 0 < d) by (unfold d; cbn; lia).
  unfold numAdd, SFadd. rewrite Z.min_id. unfold shl_align.
  rewrite Z.sub_diag. cbn [fst cond_Zopp Z.add].
  rewrite Pos.add_diag. cbn [binary_normalize]. unfold binary_round.
  change (Z.pos (digits2_pos m~0)) with (Zdigits2 (Z.pos m~0)).
  unfold numDiv, SFdiv. rewrite two_eq.
  assert (Hemin : emin prec emax = -1074) by reflexivity.
  destruct (Z.eq_dec d 53) as [D53|Dsub].
  - (* a normal number: the sum is the same mantissa one exponent up *)
    assert (F1 : fexp prec emax (Zdigits2 (Z.pos m~0) + e) = e + 1)
      by (rewrite Dd; revert C; unfold fexp, prec, emax in *; rewrite ?Hemin; lia).
    unfold shl_align. rewrite F1.
    replace (e + 1 - e) with 1 by lia. cbn iota.
    rewrite (binary_round_aux_even m e F1) by (unfold emax, prec in *; lia).
    unfold SFdiv_core_binary. fold d. rewrite D53.
    change (Zdigits2 4503599627370496) with 53.
    destruct (Z.eq_dec e (-1074)) as [->|Ne].
    + cbn -[Z.div_eucl binary_round_aux Z.shiftl].
      rewrite Z.shiftl_mul_pow2 by lia.
      change (2 ^ 52) with 4503599627370496.
      rewrite div_eucl_mul by lia. cbn [xorb].
      change (new_location 4503599627370496 0) with loc_Exact.
      apply binary_round_aux_canonical; [exact C | unfold emax, prec; lia].
    + assert (E1 : Z.min (fexp prec emax (53 + (e + 1) - (53 + -51)))
                     (e + 1 - -51) = e - 1)
        by (revert C; unfold fexp, prec, emax in *; rewrite ?Hemin; lia).
      rewrite E1. replace (e + 1 - -51 - (e - 1)) with 53 by lia. cbn iota.
      rewrite Z.shiftl_mul_pow2 by lia.
      replace (Z.pos m * 2 ^ 53) with (Z.pos m~0 * 4503599627370496) by lia.
      rewrite div_eucl_mul by lia. cbn [xorb].
      change (new_location 4503599627370496 0) with loc_Exact.
      replace e with (e - 1 + 1) at 2 by lia.
      apply binary_round_aux_even; [|unfold emax, prec in *; lia].
      rewrite Dd. revert C. unfold fexp, prec, emax in *. rewrite ?Hemin. lia.
  - (* a subnormal number: the sum doubles the mantissa *)
    assert (Ee : e = -1074)
      by (revert C; unfold fexp, prec, emax in *; rewrite ?Hemin; lia).
    subst e.
    assert (Dlt : d < 53)
      by (revert C; unfold fexp, prec, emax in *; rewrite ?Hemin; lia).
    assert (F1 : fexp prec emax (Zdigits2 (Z.pos m~0) + -1074) = -1074)
      by (rewrite Dd; unfold fexp, prec, emax in *; rewrite ?Hemin; lia).
    unfold shl_align. rewrite F1.
    change (-1074 - -1074) with 0. cbn iota.
    rewrite (binary_round_aux_canonical (m~0) (-1074) F1)
      by (unfold emax, prec; lia).
    unfold SFdiv_core_binary. rewrite Dd.
    change (Zdigits2 4503599627370496) with 53.
    assert (E1 : Z.min (fexp prec emax (d + 1 + -1074 - (53 + -51)))
                   (-1074 - -51) = -1074)
      by (unfold fexp, prec, emax in *; rewrite ?Hemin; lia).
    rewrite E1. cbn -[Z.div_eucl binary_round_aux Z.shiftl].
    rewrite Z.shiftl_mul_pow2 by lia.
    replace (Z.pos m~0 * 2 ^ 51) with (Z.pos m * 4503599627370496) by lia.
    rewrite div_eucl_mul by lia. cbn [xorb].
    change (new_location 4503599627370496 0) with loc_Exact.
    apply binary_round_aux_canonical; [exact C | unfold emax, prec; lia].
Qed.

Lemma compare_cont_Eq_Lt p q :
  Pos.compare_cont Eq p q = Lt -> Z.pos p < Z.pos q.
Proof. intros H. exact H. Qed.

Lemma half_of_twice v :
  plain v = true -> valid_binary prec emax v = true ->
  numLt v twoTo1023 = true ->
  numDiv (numAdd v v) two = v.
Proof.
  destruct v as [[|]|[|]| |[|] m e]; try discriminate; try reflexivity.
  intros _ V L. apply half_of_twice_finite; [exact V|].
  cbn [valid_binary] in V. unfold bounded, canonical_mantissa in V.
  apply andb_prop in V as [C B]. apply Z.eqb_eq in C. apply Z.leb_le in B.
  change twoTo1023 with (S754_finite false 4503599627370496 971) in L.
  unfold numLt, SFltb, SFcompare in L.
  destruct (Z.compare_spec e 971) as [->|Lt|Gt]; try discriminate.
  - exfalso.
    destruct (Pos.compare_cont Eq m 4503599627370496) eqn:K;
      try discriminate.
    apply compare_cont_Eq_Lt in K.
    assert (D : Z.pos (digits2_pos m) = 53)
      by (revert C; unfold fexp, emin, prec, emax; lia).
    pose proof (digits_53_large m D) as G.
    change (2 ^ 52) with 4503599627370496 in G. lia.
  - unfold emax, prec. lia.
Qed.

(** ** [priceParse] *)

Lemma parseFloat_all_plain ms :
  Forall (fun x => plain x = true) (map parseFloat ms).
Proof.
  apply Forall_forall. intros x I. apply in_map_iff in I as (m & <- & _).
  apply parseFloat_plain_valid.
Qed.

Lemma priceParse_some text v rest :
  map parseFloat (matchAll text) = v :: rest ->
  priceParse text =
  Some (mkParsed (mathMin (v :: rest)) (mathMax (v :: rest))
          (numDiv (numAdd (mathMin (v :: rest)) (mathMax (v :: rest))) two)).
Proof. unfold priceParse. intros ->. reflexivity. Qed.

(** C3 as stated fails at a single value of 2^1023 or more: for the price
    text [hugePrice] the only value is the double 1e308, [lo] and [hi] are
    that value, and [mid], computed as [(lo + hi) / 2], is [Infinity]. *)
Lemma priceParse_single_value_overflow :
  let v := S754_finite false 5010420900022432 971 in
  map parseFloat (matchAll hugePrice) = [v] /\
  priceParse hugePrice = Some (mkParsed v v (S754_infinity false)) /\
  SFeqb (S754_infinity false) v = false /\
  numLt v twoTo1023 = false.
Proof. vm_compute. repeat split; reflexivity. Defined.

(** C3, amended.  [priceParse] returns none exactly when the text has no
    substring made of one digit or more, a point and two digits.  Otherwise
    every extracted text is such a substring, [lo] and [hi] are members of
    the extracted values that bound all of them from below and from above,
    and [mid] is [(lo + hi) / 2] in double arithmetic.  With exactly one
    value [v], [lo] and [hi] are [v], and [mid] is [v] as long as [v] is
    below 2^1023, so that [v + v] does not overflow. *)
Theorem priceParse_min_max_mid (text : jsstring) :
  let nums := map parseFloat (matchAll text) in
  (priceParse text = None <-> ~ containsPrice text) /\
  (forall m, In m (matchAll text) ->
     priceShaped m /\ exists pre post, text = pre ++ m ++ post) /\
  (forall p, priceParse text = Some p ->
     In (lo p) nums /\ In (hi p) nums /\
     (forall v, In v nums ->
        numLe (lo p) v = true /\ numLe v (hi p) = true) /\
     mid p = numDiv (numAdd (lo p) (hi p)) two) /\
  (forall v, nums = [v] ->
     exists p, priceParse text = Some p /\ lo p = v /\ hi p = v /\
       (numLt v twoTo1023 = true -> mid p = v)).
Proof.
  intros nums. split; [|split; [|split]].
  - rewrite <- matchAll_nil_iff. unfold priceParse. fold nums. unfold nums.
    destruct (matchAll text); cbn [map]; split; congruence.
  - intros m I. apply (scanFrom_shaped text 0 m I).
  - intros p E. pose proof (parseFloat_all_plain (matchAll text)) as F.
    fold nums in F. destruct nums as [|v rest] eqn:N.
    + unfold priceParse in E. fold nums in E. rewrite N in E. discriminate.
    + rewrite (priceParse_some text v rest N) in E. injection E as <-. cbn [lo hi mid].
      destruct (@mathMin_plain v rest F) as (I1 & L1 & _).
      destruct (@mathMax_plain v rest F) as (I2 & L2 & _).
      repeat split; auto.
  - intros v N. pose proof (parseFloat_all_plain (matchAll text)) as F.
    fold nums in F. rewrite N in F.
    destruct (@mathMin_plain v [] F) as (_ & _ & E1).
    destruct (@mathMax_plain v [] F) as (_ & _ & E2).
    eexists. split; [apply (priceParse_some text v [] N)|]. cbn [lo hi mid].
    rewrite (E1 eq_refl), (E2 eq_refl). repeat split.
    intros L. apply half_of_twice; auto.
    + now inversion F.
    + assert (I : In v nums) by (rewrite N; now left).
      unfold nums in I. apply in_map_iff in I as (m & <- & _).
      apply parseFloat_plain_valid.
Qed.

(** C3 at the price text ["$199.99"]: one value, which is [lo], [hi] and
    [mid]. *)
Lemma priceParse_single_value_witness :
  exists p,
    priceParse (lit "$199.99") = Some p /\
    lo p = parseFloat (lit "199.99") /\ hi p = parseFloat (lit "199.99") /\
    mid p = parseFloat (lit "199.99").
Proof.
  destruct (proj2 (proj2 (proj2 (priceParse_min_max_mid (lit "$199.99"))))
              (parseFloat (lit "199.99")) ltac:(vm_compute; reflexivity))
    as (p & E & L & H & M).
  exists p. repeat split; auto.
Defined.

(** The range of the specification's test: 120.00 and 150.00 give the
    midpoint 135. *)
Lemma priceParse_range_example :
  priceParse (lit "$120.00 - $150.00")
  = Some (mkParsed (ofInt 120) (ofInt 150) (ofInt 135)).
Proof. vm_compute. reflexivity. Qed.

(** ** More on [normalize] *)

Local Close Scope Z_scope.

Lemma trimStart_head s c r : trimStart s = c :: r -> isWhite c = false.
Proof.
  induction s as [|a s IH]; cbn [trimStart]; [discriminate|].
  destruct (isWhite a) eqn:W; auto. intros [= <- _]. exact W.
Qed.

Lemma trimEnd_head s c r :
  trimEnd s = c :: r -> exists r', s = c :: r'.
Proof.
  destruct s as [|a s]; cbn [trimEnd]; [discriminate|].
  destruct (trimEnd s); [destruct (isWhite a)|]; intros E;
    inversion E; subst; eauto.
Qed.

Lemma trimEnd_last s : forall r c, trimEnd s = r ++ [c] -> isWhite c = false.
Proof.
  induction s as [|a s IH]; intros r c; cbn [trimEnd].
  - destruct r; discriminate.
  - destruct (trimEnd s) as [|b t] eqn:E.
    + destruct (isWhite a) eqn:W; [destruct r; discriminate|].
      destruct r as [|x [|y r]]; cbn; intros [= -> ]; auto; discriminate.
    + destruct r as [|x r]; cbn; [discriminate|].
      intros [= -> E']. eapply IH. exact E'.
Qed.

Lemma collapseFrom_length b s : length (collapseFrom b s) <= length s.
Proof.
  revert b; induction s as [|c r IH]; intros b; cbn [collapseFrom length]; auto.
  destruct (isWhite c); [destruct b|]; cbn [length];
    try apply le_n_S; try apply le_S; apply IH.
Qed.

Lemma trimStart_length s : length (trimStart s) <= length s.
Proof.
  induction s as [|c r IH]; cbn [trimStart length]; auto.
  destruct (isWhite c); auto.
Qed.

Lemma trimEnd_length s : length (trimEnd s) <= length s.
Proof.
  induction s as [|c r IH]; cbn [trimEnd]; auto.
  destruct (trimEnd r); [destruct (isWhite c)|]; cbn [length] in *; lia.
Qed.

Lemma trimEnd_nil_white s : trimEnd s = [] -> forallb isWhite s = true.
Proof.
  induction s as [|c r IH]; cbn [trimEnd forallb]; auto.
  destruct (trimEnd r); [|discriminate].
  destruct (isWhite c); [auto | discriminate].
Qed.

Lemma trimStart_nil_white s : trimStart s = [] -> forallb isWhite s = true.
Proof.
  induction s as [|c r IH]; cbn [trimStart forallb]; auto.
  destruct (isWhite c); [auto | discriminate].
Qed.

Lemma trimStart_white_tail s :
  forallb isWhite (trimStart s) = true -> forallb isWhite s = true.
Proof.
  induction s as [|c r IH]; cbn [trimStart]; auto.
  destruct (isWhite c) eqn:W; cbn [forallb]; rewrite ?W; auto.
Qed.

Lemma collapseFrom_white_inv b s :
  forallb isWhite (collapseFrom b s) = true -> forallb isWhite s = true.
Proof.
  revert b; induction s as [|c r IH]; intros b; cbn [collapseFrom forallb]; auto.
  destruct (isWhite c) eqn:W.
  - destruct b; cbn [forallb andb]; [eauto|].
    change (isWhite space) with true. cbn [andb]. eauto.
  - cbn [forallb]. rewrite W. discriminate.
Qed.

(** X1.  The shape of a normalized string: every character is its own
    lower case, white space occurs only as single spaces that are not
    adjacent, and neither the first nor the last character is white. *)
Theorem normalize_shape (s : jsstring) :
  lowered (normalize s) /\
  collapsed false (normalize s) = true /\
  (forall c r, normalize s = c :: r -> isWhite c = false) /\
  (forall r c, normalize s = r ++ [c] -> isWhite c = false).
Proof.
  unfold normalize, trim, collapseWhite. repeat split.
  - auto using lowered_trimEnd, lowered_trimStart, lowered_collapseFrom,
      lowered_toLowerCase.
  - apply collapsed_trimEnd, collapsed_trimStart with (b := false),
      collapsed_collapseFrom.
  - intros c r E. destruct (trimEnd_head _ _ _ E) as [r' E'].
    exact (trimStart_head _ _ _ E').
  - intros r c E. exact (trimEnd_last _ _ _ E).
Qed.

(** X2.  [normalize] gives the empty string exactly for the strings made of
    white space only (the empty string among them). *)
Theorem normalize_empty_iff (s : jsstring) :
  normalize s = [] <-> forallb isWhite s = true.
Proof.
  split; [|apply normalize_white].
  unfold normalize, trim, collapseWhite, toLowerCase. intros E.
  apply trimEnd_nil_white, trimStart_white_tail, collapseFrom_white_inv in E.
  rewrite forallb_forall in *. intros c I.
  rewrite <- toLowerChar_white. apply E, in_map, I.
Qed.

(** X3.  Collapsing the white space and trimming never lengthen a string:
    [normalize] of a string is never longer than its lower-case form, and
    the price text that the extraction keeps is never longer than the text
    it is computed from. *)
Theorem normalize_length (s : jsstring) :
  length (normalize s) <= length (toLowerCase s) /\
  length (trim (collapseWhite s)) <= length s.
Proof.
  assert (K : forall t, length (trim (collapseWhite t)) <= length t).
  { intros t. unfold trim, collapseWhite.
    eapply Nat.le_trans; [apply trimEnd_length|].
    eapply Nat.le_trans; [apply trimStart_length|].
    apply collapseFrom_length. }
  split; [apply K | apply K].
Qed.

(** ** More on the deduplication *)

Lemma mapSet_new V (k : jsstring) (v : V) (m : JsMap V) :
  mapGet k m = None -> mapSet k v m = m ++ [(k, v)].
Proof.
  induction m as [|[k0 x] r IH]; cbn [mapGet mapSet app]; auto.
  destruct (jsstring_eq_dec k0 k); [discriminate|].
  intros E. now rewrite IH.
Qed.

Lemma mapGet_None_keys V (k : jsstring) (m : JsMap V) :
  ~ In k (map fst m) -> mapGet k m = None.
Proof.
  intros N. destruct (mapGet k m) eqn:E; auto.
  exfalso. apply N. apply mapGet_In_keys. congruence.
Qed.

Lemma fold_dedupStep_distinct l : forall m,
  NoDup (map keyOf l) ->
  (forall it, In it l -> ~ In (keyOf it) (map fst m)) ->
  fold_left dedupStep l m = m ++ map (fun it => (keyOf it, it)) l.
Proof.
  induction l as [|it r IH]; intros m ND D; cbn [fold_left map].
  - now rewrite app_nil_r.
  - inversion ND as [|? ? N ND']; subst.
    assert (G : mapGet (keyOf it) m = None)
      by (apply mapGet_None_keys, D; now left).
    assert (S : dedupStep m it = m ++ [(keyOf it, it)]).
    { unfold dedupStep, mapHas. rewrite G. cbn [negb orb].
      now apply mapSet_new. }
    rewrite S, IH; auto.
    + now rewrite <- app_assoc.
    + intros x I. rewrite map_app, in_app_iff. cbn [map fst In].
      intros [J|[J|[]]].
      * apply (D x); auto. now right.
      * apply N. rewrite J. now apply in_map.
Qed.

Lemma dedupe_fix items : NoDup (map keyOf items) -> dedupe items = items.
Proof.
  intros ND. unfold dedupe, dedupMap, mapValues.
  rewrite fold_dedupStep_distinct; auto.
  cbn [app]. rewrite map_map. cbn [snd]. apply map_id.
Qed.

(** X4.  A list of listings whose normalized names are pairwise distinct
    passes the deduplication unchanged, in content and in order. *)
Theorem dedupe_distinct_names (items : list Listing) :
  NoDup (map keyOf items) -> dedupe items = items.
Proof.
  intros ND. unfold dedupe, dedupMap, mapValues.
  rewrite fold_dedupStep_distinct; auto.
  cbn [app]. rewrite map_map. cbn [snd]. apply map_id.
Qed.

(** X4 at two listings of different products. *)
Lemma dedupe_distinct_names_witness :
  dedupe [mkListing (lit "Bantam EXPS") (lit "$99.00");
          mkListing (lit "Onyx Evoke") (lit "$59.00")]
  = [mkListing (lit "Bantam EXPS") (lit "$99.00");
     mkListing (lit "Onyx Evoke") (lit "$59.00")].
Proof.
  apply dedupe_distinct_names. vm_compute.
  repeat constructor; cbn; intuition discriminate.
Defined.

Lemma keys_fold_length items : forall m,
  length (map fst (fold_left dedupStep items m))
  <= length (map fst m) + length items.
Proof.
  induction items as [|it r IH]; intros m; cbn [fold_left length]; [lia|].
  eapply Nat.le_trans; [apply IH|]. rewrite keys_dedupStep.
  destruct (in_dec jsstring_eq_dec (keyOf it) (map fst m));
    rewrite ?length_app; cbn [length]; lia.
Qed.

(** X5.  The deduplication is idempotent, returns at most as many listings
    as it is given, and returns none only when it is given none. *)
Theorem dedupe_idempotent_bounded (items : list Listing) :
  dedupe (dedupe items) = dedupe items /\
  length (dedupe items) <= length items /\
  (dedupe items = [] <-> items = []).
Proof.
  split; [|split].
  - apply dedupe_fix. rewrite dedupe_keys.
    apply NoDup_keys_dedupMap.
  - unfold dedupe, mapValues. rewrite length_map, <- (length_map fst).
    apply (keys_fold_length items []).
  - split; [|intros ->; reflexivity].
    intros E. destruct items as [|it r]; auto. exfalso.
    pose proof (dedupInv_dedupMap (it :: r)) as [_ I2].
    specialize (I2 it (or_introl eq_refl)).
    apply mapGet_In_keys in I2. rewrite <- dedupe_keys, E in I2. exact I2.
Qed.

(** ** More on the matcher *)

Lemma includes_nil q : includes q [] = true.
Proof. destruct q; reflexivity. Qed.

Lemma tokenBest_step toks seen r x :
  tokenBest toks seen r ->
  tokenBest toks (seen ++ [x]) (ServerJs.tokenStep toks r x).
Proof.
  unfold ServerJs.tokenStep. destruct r as [[a h]|]; cbn [tokenBest].
  - intros (-> & P & I & A).
    destruct (Nat.ltb_spec 0 (hitCount toks x)) as [Px|Zx]; cbn [andb].
    + destruct (Nat.ltb_spec (hitCount toks a) (hitCount toks x)) as [L|L];
        cbn [orb].
      * repeat split; auto; try (apply in_or_app; right; now left);
          apply in_app_or in H as [H|[<-|[]]]; auto;
          destruct (A _ H); lia.
      * destruct (Nat.eqb_spec (hitCount toks x) (hitCount toks a)) as [E|E];
          cbn [andb].
        -- destruct (Nat.ltb_spec (length (name a)) (length (name x))) as [N|N].
           ++ repeat split; auto; try (apply in_or_app; right; now left);
                apply in_app_or in H as [H|[<-|[]]]; auto;
                destruct (A _ H); lia.
           ++ repeat split; auto; try (apply in_or_app; now left);
                apply in_app_or in H as [H|[<-|[]]]; auto;
                try (destruct (A _ H); lia); lia.
        -- repeat split; auto; try (apply in_or_app; now left);
             apply in_app_or in H as [H|[<-|[]]]; auto;
             try (destruct (A _ H); lia); lia.
    + repeat split; auto; try (apply in_or_app; now left);
        apply in_app_or in H as [H|[<-|[]]]; auto;
        try (destruct (A _ H); lia); lia.
  - intros A.
    destruct (Nat.ltb_spec 0 (hitCount toks x)) as [Px|Zx]; cbn [andb tokenBest].
    + repeat split; auto; try (apply in_or_app; right; now left);
        apply in_app_or in H as [H|[<-|[]]]; auto;
        rewrite (A _ H); lia.
    + intros c I. apply in_app_or in I as [I|[<-|[]]]; auto. lia.
Qed.

Lemma tokenBest_fold toks ds : forall seen r,
  tokenBest toks seen r ->
  tokenBest toks (seen ++ ds) (fold_left (ServerJs.tokenStep toks) ds r).
Proof.
  induction ds as [|x d IH]; intros seen r H; cbn [fold_left].
  - now rewrite app_nil_r.
  - replace (seen ++ x :: d) with ((seen ++ [x]) ++ d)
      by (rewrite <- app_assoc; reflexivity).
    apply IH, tokenBest_step, H.
Qed.

Lemma serverjs_tokenPhase_best q ds :
  tokenBest (tokens q) ds (ServerJs.tokenPhase q ds).
Proof.
  apply (tokenBest_fold (tokens q) ds [] None). intros c [].
Qed.

Lemma tokenFirstBest_step toks seen r x :
  tokenFirstBest toks seen r ->
  tokenFirstBest toks (seen ++ [x]) (RetryRev.tokenStep toks r x).
Proof.
  unfold RetryRev.tokenStep. destruct r as [[a h]|]; cbn [tokenFirstBest].
  - intros (-> & P & pre & post & -> & Hpre & Hpost).
    destruct (Nat.ltb_spec 0 (hitCount toks x)) as [Px|Zx]; cbn [andb].
    + destruct (Nat.ltb_spec (hitCount toks a) (hitCount toks x)) as [L|L].
      * repeat split; auto. exists (pre ++ a :: post), []. repeat split; auto.
        -- intros c I. apply in_app_or in I as [I|[<-|I]]; auto.
           ++ specialize (Hpre _ I). lia.
           ++ specialize (Hpost _ I). lia.
        -- intros c [].
      * repeat split; auto. exists pre, (post ++ [x]). repeat split; auto.
        -- now rewrite <- app_assoc.
        -- intros c I. apply in_app_or in I as [I|[<-|[]]]; auto.
    + repeat split; auto. exists pre, (post ++ [x]). repeat split; auto.
      * now rewrite <- app_assoc.
      * intros c I. apply in_app_or in I as [I|[<-|[]]]; auto. lia.
  - intros A.
    destruct (Nat.ltb_spec 0 (hitCount toks x)) as [Px|Zx];
      cbn [andb tokenFirstBest].
    + repeat split; auto. exists seen, []. repeat split; auto.
      * intros c I. rewrite (A _ I). exact Px.
      * intros c [].
    + intros c I. apply in_app_or in I as [I|[<-|[]]]; auto. lia.
Qed.

Lemma tokenFirstBest_fold toks ds : forall seen r,
  tokenFirstBest toks seen r ->
  tokenFirstBest toks (seen ++ ds) (fold_left (RetryRev.tokenStep toks) ds r).
Proof.
  induction ds as [|x d IH]; intros seen r H; cbn [fold_left].
  - now rewrite app_nil_r.
  - replace (seen ++ x :: d) with ((seen ++ [x]) ++ d)
      by (rewrite <- app_assoc; reflexivity).
    apply IH, tokenFirstBest_step, H.
Qed.

Lemma retryrev_tokenPhase_best q ds :
  tokenFirstBest (tokens q) ds (RetryRev.tokenPhase q ds).
Proof.
  apply (tokenFirstBest_fold (tokens q) ds [] None). intros c [].
Qed.

Lemma truthy_true (s : jsstring) : truthy s = true -> s <> [].
Proof. destruct s; [discriminate | congruence]. Qed.

Lemma find_first A (f : A -> bool) l x :
  find f l = Some x ->
  f x = true /\
  exists pre post, l = pre ++ x :: post /\ forall c, In c pre -> f c = false.
Proof.
  induction l as [|a l IH]; cbn [find]; [discriminate|].
  destruct (f a) eqn:F.
  - intros [= <-]. split; auto. exists [], l. split; auto. intros c [].
  - intros E. destruct (IH E) as (Fx & pre & post & -> & P).
    split; auto. exists (a :: pre), post. split; auto.
    intros c [<-|I]; auto.
Qed.

(** X6.  What [bestMatch] of [server.js] returns is a listing of the
    catalog, for a query that is not blank, and the listing does match: with a
    [score], its normalized name contains the query or is contained in it
    and the score is the overlap; with [hits], that is the number of query
    tokens found in its name, at least one, and no entry of the catalog is a
    containment match. *)
Theorem serverjs_bestMatch_sound (model : jsstring) (dataset : list Listing)
    (m : Match) :
  ServerJs.bestMatch model dataset = Some m ->
  let q := normalize model in
  q <> [] /\ In (listing m) dataset /\
  ((metric m = Score (overlap q (listing m)) /\
    containsEither q (listing m) = true) \/
   (metric m = Hits (hitCount (tokens q) (listing m)) /\
    0 < hitCount (tokens q) (listing m) /\
    forall it, In it dataset -> containsEither q it = false)).
Proof.
  intros E q. unfold ServerJs.bestMatch in E. fold q in E.
  destruct (truthy q) eqn:T; [|discriminate].
  split; [now apply truthy_true|].
  pose proof (substringPhase_firstLongest q dataset) as S.
  destruct (ServerJs.substringPhase q dataset) as [[it s]|];
    cbn [firstLongest] in S.
  - injection E as <-. cbn [listing metric].
    destruct S as (-> & pre & post & C & _).
    assert (I : In it (filter (containsEither q) dataset))
      by (rewrite C; apply in_or_app; right; now left).
    apply filter_In in I as [I F]. auto.
  - pose proof (serverjs_tokenPhase_best q dataset) as B.
    destruct (ServerJs.tokenPhase q dataset) as [[it h]|];
      [|discriminate].
    injection E as <-. cbn [listing metric tokenBest] in *.
    destruct B as (-> & P & I & _). split; auto. right. repeat split; auto.
    intros x Ix. destruct (containsEither q x) eqn:F; auto.
    assert (J : In x (filter (containsEither q) dataset))
      by (apply filter_In; auto).
    rewrite S in J. destruct J.
Qed.

(** X6 on a query that only shares tokens with an entry. *)
Lemma serverjs_bestMatch_sound_witness :
  In onyx [bantam; onyx] /\
  hitCount (tokens (lit "onyx pro paddle")) onyx = 2.
Proof.
  destruct (serverjs_bestMatch_sound (lit "Onyx  Pro paddle") [bantam; onyx]
              (mkMatch onyx (Hits 2)) ltac:(vm_compute; reflexivity))
    as (_ & I & _).
  split; [exact I | vm_compute; reflexivity].
Defined.

(** X7.  What [bestMatch] of the retry revisions returns is a listing of
    the catalog: without a metric it is the first entry, in catalog order,
    whose normalized name contains the rewritten query or is contained in
    it; with [hits] no entry is a containment match and the listing is the
    first of the entries whose names hold the most tokens of the rewritten
    query (the length of the name plays no part). *)
Theorem retryrev_bestMatch_sound (model : jsstring) (dataset : list Listing)
    (m : Match) :
  RetryRev.bestMatch model dataset = Some m ->
  let q := RetryRev.aliasRewrite (normalize model) in
  normalize model <> [] /\
  exists pre post,
    dataset = pre ++ listing m :: post /\
    ((metric m = Plain /\ containsEither q (listing m) = true /\
      forall c, In c pre -> containsEither q c = false) \/
     (metric m = Hits (hitCount (tokens q) (listing m)) /\
      0 < hitCount (tokens q) (listing m) /\
      (forall it, In it dataset -> containsEither q it = false) /\
      (forall c, In c pre ->
         hitCount (tokens q) c < hitCount (tokens q) (listing m)) /\
      (forall c, In c post ->
         hitCount (tokens q) c <= hitCount (tokens q) (listing m)))).
Proof.
  intros E q. unfold RetryRev.bestMatch in E.
  destruct (truthy (normalize model)) eqn:T; [|discriminate].
  split; [now apply truthy_true|].
  fold q in E. unfold RetryRev.matchQuery, RetryRev.substringPhase in E.
  destruct (find (containsEither q) dataset) as [it|] eqn:F.
  - injection E as <-. cbn [listing metric].
    destruct (find_first _ _ _ _ F) as (C & pre & post & D & P).
    exists pre, post. split; auto.
  - pose proof (retryrev_tokenPhase_best q dataset) as B.
    destruct (RetryRev.tokenPhase q dataset) as [[it h]|]; [|discriminate].
    injection E as <-. cbn [listing metric tokenFirstBest] in *.
    destruct B as (-> & P & pre & post & D & Hpre & Hpost).
    exists pre, post. split; auto. right. repeat split; auto.
    intros x Ix. apply (find_none _ _ F x Ix).
Qed.

(** X7 on the catalog where [server.js] prefers the longer overlap: the
    retry revisions return the entry that comes first. *)
Lemma retryrev_bestMatch_sound_witness :
  exists pre post,
    [bantam; bantamExps] = pre ++ bantam :: post /\
    containsEither (lit "bantam exps") bantam = true.
Proof.
  destruct (retryrev_bestMatch_sound (lit "Bantam EXPS") [bantam; bantamExps]
              (mkMatch bantam Plain) ltac:(vm_compute; reflexivity))
    as (_ & pre & post & D & _).
  exists pre, post. split; [exact D | vm_compute; reflexivity].
Defined.

(** X8.  [bestMatch] answers with nothing exactly when the query is blank
    or no entry of the catalog is a containment match or holds a token of
    the query (for the retry revisions: of the query after the alias
    rewrite). *)
Theorem bestMatch_none_iff (model : jsstring) (dataset : list Listing) :
  (ServerJs.bestMatch model dataset = None <->
   normalize model = [] \/
   forall it, In it dataset ->
     containsEither (normalize model) it = false /\
     hitCount (tokens (normalize model)) it = 0) /\
  (RetryRev.bestMatch model dataset = None <->
   normalize model = [] \/
   forall it, In it dataset ->
     containsEither (RetryRev.aliasRewrite (normalize model)) it = false /\
     hitCount (tokens (RetryRev.aliasRewrite (normalize model))) it = 0).
Proof.
  split.
  - unfold ServerJs.bestMatch. set (q := normalize model).
    pose proof (substringPhase_firstLongest q dataset) as S.
    pose proof (serverjs_tokenPhase_best q dataset) as B.
    destruct (truthy q) eqn:T.
    + apply truthy_true in T.
      destruct (ServerJs.substringPhase q dataset) as [[it s]|];
        cbn [firstLongest] in S.
      * split; [discriminate|]. intros [E|A]; [contradiction|]. exfalso.
        destruct S as (_ & pre & post & C & _).
        assert (I : In it (filter (containsEither q) dataset))
          by (rewrite C; apply in_or_app; right; now left).
        apply filter_In in I as [I F]. destruct (A it I). congruence.
      * destruct (ServerJs.tokenPhase q dataset) as [[it h]|];
          cbn [tokenBest] in B.
        -- split; [discriminate|]. intros [E|A]; [contradiction|]. exfalso.
           destruct B as (-> & P & I & _). destruct (A it I). lia.
        -- split; auto. intros _. right. intros it I. split; auto.
           destruct (containsEither q it) eqn:F; auto.
           assert (J : In it (filter (containsEither q) dataset))
             by (apply filter_In; auto).
           rewrite S in J. destruct J.
    + split; auto. intros _. left. destruct q; [reflexivity | discriminate].
  - unfold RetryRev.bestMatch.
    destruct (truthy (normalize model)) eqn:T.
    + apply truthy_true in T.
      set (q := RetryRev.aliasRewrite (normalize model)).
      unfold RetryRev.matchQuery, RetryRev.substringPhase.
      pose proof (retryrev_tokenPhase_best q dataset) as B.
      destruct (find (containsEither q) dataset) as [it|] eqn:F.
      * split; [discriminate|]. intros [E|A]; [contradiction|]. exfalso.
        destruct (find_some _ _ F) as [I C]. destruct (A it I). congruence.
      * destruct (RetryRev.tokenPhase q dataset) as [[it h]|];
          cbn [tokenFirstBest] in B.
        -- split; [discriminate|]. intros [E|A]; [contradiction|]. exfalso.
           destruct B as (-> & P & pre & post & D & _).
           assert (I : In it dataset)
             by (rewrite D; apply in_or_app; right; now left).
           destruct (A it I). lia.
        -- split; auto. intros _. right. intros it I. split; auto.
           apply (find_none _ _ F it I).
    + split; auto. intros _. left.
      destruct (normalize model); [reflexivity | discriminate].
Qed.

(** X9.  When [bestMatch] of [server.js] answers from the token phase, no
    entry of the catalog has more hits than the answer, and no entry with as
    many hits has a longer name. *)
Theorem serverjs_token_phase_most_hits (model : jsstring)
    (dataset : list Listing) (it : Listing) (h : nat) :
  ServerJs.bestMatch model dataset = Some (mkMatch it (Hits h)) ->
  forall c, In c dataset ->
    hitCount (tokens (normalize model)) c <= h /\
    (hitCount (tokens (normalize model)) c = h ->
     length (name c) <= length (name it)).
Proof.
  unfold ServerJs.bestMatch. set (q := normalize model).
  destruct (truthy q); [|discriminate].
  destruct (ServerJs.substringPhase q dataset) as [[x s]|]; [discriminate|].
  pose proof (serverjs_tokenPhase_best q dataset) as B.
  destruct (ServerJs.tokenPhase q dataset) as [[x k]|]; [|discriminate].
  intros [= -> ->]. cbn [tokenBest] in B. destruct B as (_ & _ & _ & A).
  exact A.
Qed.

(** X9 with two entries of one hit each: the longer name is the answer. *)
Lemma serverjs_token_phase_witness :
  hitCount (tokens (normalize (lit "evoke exps"))) onyx <= 1 /\
  (hitCount (tokens (normalize (lit "evoke exps"))) onyx = 1 ->
   length (name onyx) <= length (name bantamExps)).
Proof.
  apply (serverjs_token_phase_most_hits (lit "evoke exps") [onyx; bantamExps]
           bantamExps 1 ltac:(vm_compute; reflexivity) onyx).
  now left.
Defined.

(** X10.  A listing whose normalized name is empty is a containment match
    of every query: in the retry revisions it is the answer to every query
    that is not blank when it heads the catalog, and in [server.js] a catalog
    that holds it never yields "not found" for such a query. *)
Theorem blank_name_matches_everything (model : jsstring) (it : Listing)
    (dataset : list Listing) :
  normalize model <> [] -> normalize (name it) = [] ->
  RetryRev.bestMatch model (it :: dataset) = Some (mkMatch it Plain) /\
  (In it dataset ->
   exists x s, ServerJs.bestMatch model dataset = Some (mkMatch x (Score s))).
Proof.
  intros Q N.
  assert (C : forall q, containsEither q it = true).
  { intros q. unfold containsEither. rewrite N, includes_nil.
    apply orb_true_r. }
  split.
  - unfold RetryRev.bestMatch, RetryRev.matchQuery, RetryRev.substringPhase.
    rewrite (truthy_nonempty Q). cbn [find]. now rewrite C.
  - intros I. unfold ServerJs.bestMatch. rewrite (truthy_nonempty Q).
    pose proof (substringPhase_firstLongest (normalize model) dataset) as S.
    destruct (ServerJs.substringPhase (normalize model) dataset)
      as [[x s]|]; cbn [firstLongest] in S; [eauto|].
    assert (J : In it (filter (containsEither (normalize model)) dataset))
      by (apply filter_In; auto).
    rewrite S in J. destruct J.
Qed.

(** X10 at a listing whose name is one space. *)
Lemma blank_name_witness :
  RetryRev.bestMatch (lit "selkirk")
    [mkListing (lit " ") (lit "$1.00"); bantam]
  = Some (mkMatch (mkListing (lit " ") (lit "$1.00")) Plain).
Proof.
  apply (blank_name_matches_everything (lit "selkirk")
           (mkListing (lit " ") (lit "$1.00")) [bantam]);
    [discriminate | reflexivity].
Defined.

(** X11.  The alias rewrite is idempotent, and its result is the query
    itself or one of the targets of the table. *)
Theorem aliasRewrite_idempotent (q : jsstring) :
  RetryRev.aliasRewrite (RetryRev.aliasRewrite q) = RetryRev.aliasRewrite q /\
  (RetryRev.aliasRewrite q = q \/
   In (RetryRev.aliasRewrite q) (map snd RetryRev.ALIASES)).
Proof.
  unfold RetryRev.aliasRewrite.
  destruct (aliasLoop_first_match RetryRev.ALIASES q)
    as [(pre & a & t & post & E & _ & _ & R)|[_ R]].
  - assert (I : In (a, t) RetryRev.ALIASES)
      by (rewrite E; apply in_or_app; right; now left).
    rewrite R. split.
    + cbn in I.
      repeat (destruct I as [I|I];
              [injection I as <- <-; vm_compute; reflexivity|]).
      destruct I.
    + right. change t with (snd (a, t)). now apply in_map.
  - rewrite R. split; auto.
Qed.

(** ** More on [fetchWithRetry] *)

(** What one turn does to the world: it calls [fetch]; when it asks for
    another turn it is not the last and has waited [3000 * (i + 1)]. *)
Lemma attempt_cases retries i w :
  (snd (RetryRev.attempt retries i w) = snd (fetch w) /\
   fst (RetryRev.attempt retries i w) <> Ok RetryRev.Continue) \/
  (i <> retries - 1 /\
   fst (RetryRev.attempt retries i w) = Ok RetryRev.Continue /\
   snd (RetryRev.attempt retries i w)
   = snd (wait (3000 * (Z.of_nat i + 1)) (snd (fetch w)))).
Proof.
  unfold RetryRev.attempt, tryCatch, bind, fetch.
  destruct (upstream w (fetches w)) as [res|msg]; cbn [fst snd].
  - destruct ((status res =? 406)%Z || (500 <=? status res)%Z).
    + destruct (Nat.eqb_spec i (retries - 1)); cbn;
        [left; split; [reflexivity | discriminate] | right; auto].
    + destruct (negb (ok res)); cbn [throw].
      * destruct (Nat.eqb_spec i (retries - 1)); cbn;
          [left; split; [reflexivity | discriminate] | right; auto].
      * left. split; [reflexivity | discriminate].
  - destruct (Nat.eqb_spec i (retries - 1)); cbn;
      [left; split; [reflexivity | discriminate] | right; auto].
Qed.

(** What a turn returns or throws. *)
Lemma attempt_result retries i w :
  match fst (RetryRev.attempt retries i w) with
  | Ok (RetryRev.Return res) =>
      upstream w (fetches w) = Responds res /\
      (ok res = true \/ (retryable res /\ i = retries - 1))
  | Ok RetryRev.Continue => i <> retries - 1
  | Throw _ => i = retries - 1
  end.
Proof.
  unfold RetryRev.attempt, tryCatch, bind, fetch, retryable.
  destruct (upstream w (fetches w)) as [res|msg]; cbn [fst snd].
  - destruct (Z.eqb_spec (status res) 406) as [E|E]; cbn [orb].
    + destruct (Nat.eqb_spec i (retries - 1)); cbn; auto.
    + destruct (Z.leb_spec 500 (status res)) as [L|L].
      * destruct (Nat.eqb_spec i (retries - 1)); cbn; auto.
      * destruct (ok res) eqn:O; cbn; auto.
        destruct (Nat.eqb_spec i (retries - 1)); cbn; auto.
  - destruct (Nat.eqb_spec i (retries - 1)); cbn; auto.
Qed.

Lemma attemptsFrom_bounds retries remaining : forall i w,
  i + remaining = retries ->
  let w' := snd (RetryRev.attemptsFrom retries i remaining w) in
  fetches w' <= fetches w + remaining /\
  (clock w <= clock w' <= clock w + waitBudget i remaining)%Z /\
  (remaining <> 0 -> exists evs, trace w' = trace w ++ evs ++ [EvFetch]).
Proof.
  induction remaining as [|k IH]; intros i w E.
  - cbn. repeat split; try lia; congruence.
  - cbn [RetryRev.attemptsFrom waitBudget]. unfold bind.
    assert (F : fetches (snd (fetch w)) = S (fetches w) /\
                clock (snd (fetch w)) = clock w /\
                trace (snd (fetch w)) = trace w ++ [EvFetch])
      by (unfold fetch; destruct (upstream w (fetches w)); auto).
    destruct F as (Ff & Fc & Ft).
    assert (Hk : (0 <= match k with O => 0 | S _ => 3000 * (Z.of_nat i + 1) end)%Z)
      by (destruct k; lia).
    assert (Hb : forall j r, (0 <= waitBudget j r)%Z).
    { intros j r; revert j; induction r as [|r IHr]; intros j;
        cbn [waitBudget]; [lia|].
      specialize (IHr (S j)). destruct r; lia. }
    specialize (Hb (S i) k).
    destruct (attempt_cases retries i w) as [[W N]|(Ni & C & W)].
    + destruct (RetryRev.attempt retries i w) as [[[res|]|e] w1];
        cbn [fst snd] in *; try congruence; subst w1; cbn [snd ret];
        rewrite Ff, Fc, Ft; (repeat split; try lia);
        intros _; exists []; reflexivity.
    + destruct (RetryRev.attempt retries i w) as [[[res|]|e] w1];
        cbn [fst snd] in *; try discriminate. subst w1.
      destruct k as [|k']; [lia|].
      set (w2 := snd (wait (3000 * (Z.of_nat i + 1)) (snd (fetch w)))).
      assert (W2 : fetches w2 = S (fetches w) /\
                   clock w2 = (clock w + 3000 * (Z.of_nat i + 1))%Z /\
                   trace w2
                   = trace w ++ [EvFetch; EvWait (3000 * (Z.of_nat i + 1))]).
      { unfold w2, wait. cbn [snd fetches clock trace].
        rewrite Ff, Fc, Ft, <- app_assoc. auto. }
      destruct W2 as (Wf & Wc & Wt).
      destruct (IH (S i) w2 ltac:(lia)) as (B1 & B2 & B3).
      clearbody w2. rewrite Wf in B1. rewrite Wc in B2.
      split; [lia|]. split; [lia|].
      intros _. destruct (B3 ltac:(discriminate)) as [evs T].
      exists ([EvFetch; EvWait (3000 * (Z.of_nat i + 1))] ++ evs).
      rewrite T, Wt, <- !app_assoc. reflexivity.
Qed.

(** X12.  [fetchWithRetry] calls [fetch] at least once and at most
    [retries] times, waits no longer in total than [3000 * (i + 1)] summed
    over the attempts [i] but the last (9000 ms for the default of three
    attempts), never waits after its last call of [fetch], and leaves
    [CACHE] alone. *)
Theorem fetchWithRetry_bounds (retries : nat) (w : World) :
  retries <> 0 ->
  let w' := snd (RetryRev.fetchWithRetry retries w) in
  fetches w < fetches w' <= fetches w + retries /\
  (clock w <= clock w' <= clock w + waitBudget 0 retries)%Z /\
  waitBudget 0 3 = 9000%Z /\
  (exists evs, trace w' = trace w ++ evs ++ [EvFetch]) /\
  CACHE w' = CACHE w.
Proof.
  intros N w'. unfold RetryRev.fetchWithRetry in w'.
  destruct (attemptsFrom_bounds retries retries 0 w eq_refl) as (B1 & B2 & B3).
  destruct (attemptsFrom_counts retries retries 0 w) as (_ & L & C).
  fold w' in B1, B2, B3, L, C.
  repeat split; auto; lia.
Qed.

(** X12 at an upstream that answers 404 and then 200. *)
Lemma fetchWithRetry_bounds_witness :
  let w0 := mkWorld initialCache 0 notFoundThenFine 0 [] in
  (clock (snd (RetryRev.fetchWithRetry 3 w0)) <= 9000)%Z /\
  fetches (snd (RetryRev.fetchWithRetry 3 w0)) <= 3.
Proof.
  destruct (fetchWithRetry_bounds 3
              (mkWorld initialCache 0 notFoundThenFine 0 [])
              ltac:(discriminate)) as ((_ & F) & (_ & C) & B & _).
  split; [rewrite B in C; exact C | exact F].
Defined.

Lemma attemptsFrom_outcome retries remaining : forall i w,
  i + remaining = retries -> remaining <> 0 ->
  let r := RetryRev.attemptsFrom retries i remaining w in
  match fst r with
  | Ok None => False
  | Ok (Some res) =>
      ok res = true \/
      (retryable res /\ fetches (snd r) = fetches w + remaining)
  | Throw _ => fetches (snd r) = fetches w + remaining
  end.
Proof.
  induction remaining as [|k IH]; intros i w E N; [congruence|].
  cbn [RetryRev.attemptsFrom]. unfold bind.
  pose proof (attempt_result retries i w) as R.
  destruct (attempt_counts retries i w) as [F _].
  destruct (RetryRev.attempt retries i w) as [[[res|]|e] w1];
    cbn [fst snd] in *.
  - cbn. destruct R as [_ [O|[Rt Ei]]]; auto. right. split; auto. lia.
  - destruct k as [|k']; [lia|].
    specialize (IH (S i) w1 ltac:(lia) ltac:(discriminate)). cbn zeta in IH.
    destruct (RetryRev.attemptsFrom retries (S i) (S k') w1) as [[[res|]|e] w2];
      cbn [fst snd] in *; auto.
    + destruct IH as [O|[Rt Fq]]; auto. right. split; auto. lia.
    + lia.
  - lia.
Qed.

(** X13.  [fetchWithRetry] with at least one attempt never returns
    [undefined]; a response it returns is successful or is a 406 or 5xx
    response of the last attempt; and whenever it gives up, by returning
    such a response or by throwing, it has called [fetch] [retries]
    times. *)
Theorem fetchWithRetry_outcome (retries : nat) (w : World) :
  retries <> 0 ->
  let r := RetryRev.fetchWithRetry retries w in
  match fst r with
  | Ok None => False
  | Ok (Some res) =>
      ok res = true \/
      (retryable res /\ fetches (snd r) = fetches w + retries)
  | Throw _ => fetches (snd r) = fetches w + retries
  end.
Proof.
  intros N. apply (attemptsFrom_outcome retries retries 0 w eq_refl N).
Qed.

(** X13 at an upstream that is down: the error comes after three calls. *)
Lemma fetchWithRetry_outcome_witness :
  fetches (snd (RetryRev.fetchWithRetry 3 (emptyWorld down))) = 3.
Proof.
  exact (fetchWithRetry_outcome 3 (emptyWorld down) ltac:(discriminate)).
Defined.

(** X14.  When the first response is successful, [fetchWithRetry] returns
    it after that one call of [fetch], without waiting. *)
Theorem fetchWithRetry_first_success (retries : nat) (w : World)
    (res : HttpResponse) :
  retries <> 0 ->
  upstream w (fetches w) = Responds res -> ok res = true ->
  RetryRev.fetchWithRetry retries w = (Ok (Some res), snd (fetch w)) /\
  trace (snd (fetch w)) = trace w ++ [EvFetch] /\
  clock (snd (fetch w)) = clock w.
Proof.
  intros N U O. unfold RetryRev.fetchWithRetry.
  destruct retries as [|k]; [congruence|].
  cbn [RetryRev.attemptsFrom]. unfold RetryRev.attempt, tryCatch, bind, fetch.
  rewrite U. cbn [fst snd].
  assert (B : (200 <= status res <= 299)%Z).
  { unfold ok in O. apply andb_prop in O as [O1 O2].
    apply Z.leb_le in O1. apply Z.leb_le in O2. lia. }
  destruct (Z.eqb_spec (status res) 406); [lia|].
  destruct (Z.leb_spec 500 (status res)); [lia|]. cbn [orb].
  rewrite O. cbn. auto.
Qed.

(** X14 at an upstream that serves one listing. *)
Lemma fetchWithRetry_first_success_witness :
  trace (snd (RetryRev.fetchWithRetry 3 (emptyWorld oneListing))) = [EvFetch].
Proof.
  destruct (fetchWithRetry_first_success 3 (emptyWorld oneListing) _
              ltac:(discriminate) eq_refl eq_refl) as (E & T & _).
  rewrite E. exact T.
Defined.

(** X15.  When the three calls of [fetch] are all rejected,
    [fetchWithRetry] throws the error of the third; what it has done by then
    is: a call of [fetch], a wait of 3000 ms, a call of [fetch], a wait of
    6000 ms, a call of [fetch]. *)
Theorem fetchWithRetry_all_rejected (w : World) (m0 m1 m2 : jsstring) :
  upstream w (fetches w) = NetworkError m0 ->
  upstream w (S (fetches w)) = NetworkError m1 ->
  upstream w (S (S (fetches w))) = NetworkError m2 ->
  fst (RetryRev.fetchWithRetry 3 w) = Throw (ErrNetwork m2) /\
  trace (snd (RetryRev.fetchWithRetry 3 w))
  = trace w ++ [EvFetch; EvWait 3000; EvFetch; EvWait 6000; EvFetch] /\
  fetches (snd (RetryRev.fetchWithRetry 3 w)) = 3 + fetches w.
Proof.
  intros U0 U1 U2.
  unfold RetryRev.fetchWithRetry. cbn [RetryRev.attemptsFrom].
  unfold RetryRev.attempt, tryCatch, bind, fetch, wait.
  rewrite U0. cbn. rewrite U1. cbn. rewrite U2. cbn.
  rewrite <- !app_assoc. repeat split; auto.
Qed.

(** X15 at an upstream that is down. *)
Lemma fetchWithRetry_all_rejected_witness :
  fst (RetryRev.fetchWithRetry 3 (emptyWorld down))
  = Throw (ErrNetwork (lit "ECONNRESET")).
Proof.
  exact (proj1 (fetchWithRetry_all_rejected (emptyWorld down) _ _ _
                  eq_refl eq_refl eq_refl)).
Defined.

(** ** More on the extraction, the cache and the handler *)

Lemma extractItems_In els it :
  In it (extractItems els) ->
  exists el, In el els /\
    name it = nameTextOf el /\ price it = priceTextOf el /\
    truthy (name it) = true /\ hasDollarDigit (price it) = true.
Proof.
  unfold extractItems. intros I. apply in_flat_map in I as (el & Ie & I).
  exists el. split; auto.
  destruct (truthy (nameTextOf el) && hasDollarDigit (priceTextOf el)) eqn:K;
    [|destruct I].
  destruct I as [<-|[]]. apply andb_prop in K as [K1 K2]. cbn. auto.
Qed.

(** X16.  Every listing that the extraction keeps comes from a candidate
    element, has a name that is not empty and a price text in which a dollar
    sign is followed by a digit; the price text has its white space
    collapsed and trimmed; no more listings are kept than there are
    candidates, and they keep the order of the candidates. *)
Theorem extractItems_kept (els : list Candidate) :
  (forall it, In it (extractItems els) ->
     name it <> [] /\ hasDollarDigit (price it) = true /\
     trim (collapseWhite (price it)) = price it /\
     exists el, In el els /\
       name it = nameTextOf el /\ price it = priceTextOf el) /\
  length (extractItems els) <= length els /\
  (forall more, extractItems (els ++ more)
                = extractItems els ++ extractItems more).
Proof.
  split; [|split].
  - intros it I. destruct (extractItems_In els it I) as (el & Ie & N & P & T & D).
    repeat split; auto.
    + now apply truthy_true.
    + rewrite P. unfold priceTextOf.
      assert (C : collapsed false (trim (collapseWhite (priceRaw el))) = true).
      { unfold trim, collapseWhite. apply collapsed_trimEnd.
        apply collapsed_trimStart with (b := false).
        apply collapsed_collapseFrom. }
      unfold collapseWhite at 1. rewrite (collapsed_fix _ _ C).
      apply trim_idem.
    + eauto.
  - unfold extractItems. induction els as [|el r IH]; cbn [flat_map length];
      auto.
    rewrite length_app.
    destruct (truthy (nameTextOf el) && hasDollarDigit (priceTextOf el));
      cbn [length]; lia.
  - intros more. unfold extractItems. apply flat_map_app.
Qed.

Lemma dedupe_In items it : In it (dedupe items) -> In it items.
Proof.
  unfold dedupe, mapValues. intros I.
  apply in_map_iff in I as ([k v] & <- & I).
  pose proof (dedupInv_dedupMap items) as [I1 _].
  apply (I1 k v). apply mapGet_of_In; auto. apply NoDup_keys_dedupMap.
Qed.

Lemma storeCatalog_eq now items w :
  storeCatalog now items w
  = (Ok (dedupe items),
     mkWorld (mkCache (Some (dedupe items)) now (ttlMs (CACHE w)))
       (clock w) (upstream w) (fetches w) (trace w)).
Proof. reflexivity. Qed.

Lemma serverjs_refresh_ok now w d w' :
  ServerJs.refresh now w = (Ok d, w') ->
  CACHE w' = mkCache (Some d) now (ttlMs (CACHE w)) /\
  clock w' = clock w /\
  exists res, upstream w (fetches w) = Responds res /\ ok res = true /\
    d = dedupe (extractItems (body res)).
Proof.
  unfold ServerJs.refresh, bind, fetch.
  destruct (upstream w (fetches w)) as [res|msg]; [|discriminate].
  destruct (ok res) eqn:O; cbn [negb]; [|discriminate].
  rewrite storeCatalog_eq. cbn. intros [= <- <-]. cbn.
  split; [reflexivity|]. split; [reflexivity|]. exists res. auto.
Qed.

Lemma retryrev_refresh_ok now w d w' :
  RetryRev.refresh now w = (Ok d, w') ->
  CACHE w' = mkCache (Some d) now (ttlMs (CACHE w)) /\
  exists res, ok res = true /\ d = dedupe (extractItems (body res)).
Proof.
  unfold RetryRev.refresh, RetryRev.fetchWithRetry, bind.
  destruct (attemptsFrom_counts 3 3 0 w) as (_ & _ & C).
  destruct (RetryRev.attemptsFrom 3 0 3 w) as [[[res|]|e] w1];
    cbn [fst snd] in *; try discriminate.
  destruct (ok res) eqn:O; cbn [negb]; [|discriminate].
  rewrite storeCatalog_eq. intros [= <- <-]. cbn. rewrite C. eauto.
Qed.

Lemma serverjs_scrape_coherent w :
  ttlMs (CACHE (snd (ServerJs.scrapeUsedPaddles w))) = ttlMs (CACHE w) /\
  match fst (ServerJs.scrapeUsedPaddles w) with
  | Ok d => data (CACHE (snd (ServerJs.scrapeUsedPaddles w))) = Some d
  | Throw _ => CACHE (snd (ServerJs.scrapeUsedPaddles w)) = CACHE w
  end.
Proof.
  unfold ServerJs.scrapeUsedPaddles, bind, dateNow, getCache, tryCatch.
  destruct (cacheFresh (CACHE w) (clock w)) eqn:F.
  - cbn. unfold cacheFresh in F. destruct (data (CACHE w)); auto.
    discriminate.
  - destruct (ServerJs.refresh (clock w) w) as [[d|e] w1] eqn:R; cbn.
    + destruct (serverjs_refresh_ok _ _ _ _ R) as (-> & _). auto.
    + destruct (serverjs_refresh_counts (clock w) w) as [_ C].
      rewrite (C _ _ R). auto.
Qed.

Lemma retryrev_scrape_coherent w :
  ttlMs (CACHE (snd (RetryRev.scrapeUsedPaddles w))) = ttlMs (CACHE w) /\
  match fst (RetryRev.scrapeUsedPaddles w) with
  | Ok d => data (CACHE (snd (RetryRev.scrapeUsedPaddles w))) = Some d
  | Throw _ => CACHE (snd (RetryRev.scrapeUsedPaddles w)) = CACHE w
  end.
Proof.
  unfold RetryRev.scrapeUsedPaddles, bind, dateNow, getCache, tryCatch.
  destruct (cacheFresh (CACHE w) (clock w)) eqn:F.
  - cbn. unfold cacheFresh in F. destruct (data (CACHE w)); auto.
    discriminate.
  - destruct (RetryRev.refresh (clock w) w) as [[d|e] w1] eqn:R; cbn.
    + destruct (retryrev_refresh_ok _ _ _ _ R) as (-> & _). auto.
    + destruct (retryrev_refresh_counts (clock w) w) as [_ C].
      rewrite (C _ _ R).
      destruct (data (CACHE w)) eqn:D; cbn; rewrite ?(C _ _ R); auto.
Qed.

(** X17.  After [scrapeUsedPaddles], in every revision, the time to live of
    the cache is what it was; when a catalog is returned, it is the catalog
    that the cache holds afterwards; and when the call throws, [CACHE] is
    what it was. *)
Theorem scrapeUsedPaddles_cache_coherent (w : World) :
  (ttlMs (CACHE (snd (ServerJs.scrapeUsedPaddles w))) = ttlMs (CACHE w) /\
   match fst (ServerJs.scrapeUsedPaddles w) with
   | Ok d => data (CACHE (snd (ServerJs.scrapeUsedPaddles w))) = Some d
   | Throw _ => CACHE (snd (ServerJs.scrapeUsedPaddles w)) = CACHE w
   end) /\
  (ttlMs (CACHE (snd (RetryRev.scrapeUsedPaddles w))) = ttlMs (CACHE w) /\
   match fst (RetryRev.scrapeUsedPaddles w) with
   | Ok d => data (CACHE (snd (RetryRev.scrapeUsedPaddles w))) = Some d
   | Throw _ => CACHE (snd (RetryRev.scrapeUsedPaddles w)) = CACHE w
   end).
Proof.
  split; [apply serverjs_scrape_coherent | apply retryrev_scrape_coherent].
Qed.

Lemma retryrev_scrape_populated w d :
  data (CACHE w) = Some d ->
  exists d', fst (RetryRev.scrapeUsedPaddles w) = Ok d'.
Proof.
  intros D.
  unfold RetryRev.scrapeUsedPaddles, bind, dateNow, getCache, tryCatch.
  destruct (cacheFresh (CACHE w) (clock w)); [cbn; eauto|].
  destruct (RetryRev.refresh (clock w) w) as [[d1|e] w1] eqn:R; cbn; eauto.
  destruct (retryrev_refresh_counts (clock w) w) as [_ C].
  rewrite (C _ _ R), D. cbn. eauto.
Qed.

(** X18.  Once the cache holds a catalog, [scrapeUsedPaddles] of the retry
    revisions returns a catalog whatever the upstream does, and a request
    whose fields are strings (or absent) is never answered with the failure
    of status 500. *)
Theorem retryrev_populated_never_fails (w : World) (d : list Listing)
    (req : Request) :
  data (CACHE w) = Some d ->
  (exists d', fst (RetryRev.scrapeUsedPaddles w) = Ok d') /\
  fst (RetryRev.offer req w) <> Failed.
Proof.
  intros D. destruct (retryrev_scrape_populated w d D) as [d' E].
  split; [eauto|].
  unfold RetryRev.offer, offerHandler.
  destruct (negb (present (model req)) || negb (present (condition req)));
    [discriminate|].
  destruct (RetryRev.scrapeUsedPaddles w) as [[ds|e] w1]; cbn [fst] in *;
    [|discriminate].
  destruct (RetryRev.bestMatch (orEmpty (model req)) ds); [|discriminate].
  destruct (priceParse (price (listing m))); discriminate.
Qed.

(** X18 with an expired cache and the upstream down. *)
Lemma retryrev_populated_never_fails_witness :
  exists d', fst (RetryRev.scrapeUsedPaddles (populated 400000 down)) = Ok d'.
Proof.
  exact (proj1 (retryrev_populated_never_fails (populated 400000 down)
                  [paddle] blankRequest eq_refl)).
Defined.

Lemma scrape_hit_iff w d :
  data (CACHE w) = Some d ->
  (ServerJs.scrapeUsedPaddles w = (Ok d, w) <->
   cacheFresh (CACHE w) (clock w) = true) /\
  (RetryRev.scrapeUsedPaddles w = (Ok d, w) <->
   cacheFresh (CACHE w) (clock w) = true).
Proof.
  intros D.
  destruct (cacheFresh (CACHE w) (clock w)) eqn:F.
  - destruct (@scrape_fresh w d D F) as [S1 S2]. tauto.
  - destruct (@scrape_stale_fetches w F) as [L1 L2].
    split; (split; [|discriminate]); intros E; rewrite E in *;
      cbn [snd] in *; lia.
Qed.

(** X19.  In [server.js], a call of [scrapeUsedPaddles] that refreshes the
    cache stores the returned catalog with [fetchedAt] set to the time at
    which the call began and with the time to live it had; a later call
    that finds this cache returns the same catalog without calling [fetch]
    exactly when less than the time to live has passed since the first call
    began. *)
Theorem serverjs_refresh_then_hit (w w' : World) (d : list Listing) :
  cacheFresh (CACHE w) (clock w) = false ->
  ServerJs.scrapeUsedPaddles w = (Ok d, w') ->
  CACHE w' = mkCache (Some d) (clock w) (ttlMs (CACHE w)) /\
  forall w2, CACHE w2 = CACHE w' ->
    (ServerJs.scrapeUsedPaddles w2 = (Ok d, w2) <->
     (clock w2 - clock w < ttlMs (CACHE w))%Z).
Proof.
  intros F E.
  unfold ServerJs.scrapeUsedPaddles, bind, dateNow, getCache, tryCatch in E.
  rewrite F in E.
  destruct (ServerJs.refresh (clock w) w) as [[d1|e] w1] eqn:R;
    [|discriminate].
  injection E as -> ->.
  destruct (serverjs_refresh_ok _ _ _ _ R) as (C & _).
  split; [exact C|]. intros w2 C2.
  assert (D : data (CACHE w2) = Some d) by (rewrite C2, C; reflexivity).
  rewrite (proj1 (scrape_hit_iff w2 d D)).
  unfold cacheFresh. rewrite D, C2, C. cbn [fetchedAt ttlMs].
  apply Z.ltb_lt.
Qed.

(** X19 at the first request after the start: a call 299999 ms after it is
    served from the cache. *)
Lemma serverjs_refresh_then_hit_witness :
  ServerJs.scrapeUsedPaddles
    (mkWorld (mkCache (Some [paddle]) 1700000000000 300000)
       1700000299999 oneListing 1 [EvFetch])
  = (Ok [paddle],
     mkWorld (mkCache (Some [paddle]) 1700000000000 300000)
       1700000299999 oneListing 1 [EvFetch]).
Proof.
  assert (E : ServerJs.scrapeUsedPaddles (emptyWorld oneListing)
              = (Ok [paddle],
                 mkWorld (mkCache (Some [paddle]) 1700000000000 300000)
                   1700000000000 oneListing 1 [EvFetch]))
    by (vm_compute; reflexivity).
  destruct (serverjs_refresh_then_hit (emptyWorld oneListing) _ [paddle]
              eq_refl E) as [_ H].
  apply (H (mkWorld (mkCache (Some [paddle]) 1700000000000 300000)
              1700000299999 oneListing 1 [EvFetch]) eq_refl).
  reflexivity.
Defined.

(** X20.  In the retry revisions, a call of [scrapeUsedPaddles] that finds
    the cache not fresh and returns a catalog has either refreshed the
    cache, with [fetchedAt] set to the time at which the call began (the
    waits of the retries are not added), or returned the stale catalog and
    left [CACHE] as it was; in the second case every later call that finds
    this cache calls [fetch] again. *)
Theorem retryrev_refresh_or_stale (w w' : World) (d : list Listing) :
  cacheFresh (CACHE w) (clock w) = false ->
  RetryRev.scrapeUsedPaddles w = (Ok d, w') ->
  CACHE w' = mkCache (Some d) (clock w) (ttlMs (CACHE w)) \/
  (CACHE w' = CACHE w /\ data (CACHE w) = Some d /\
   forall w2, CACHE w2 = CACHE w' -> (clock w <= clock w2)%Z ->
     fetches w2 < fetches (snd (RetryRev.scrapeUsedPaddles w2))).
Proof.
  intros F E.
  unfold RetryRev.scrapeUsedPaddles, bind, dateNow, getCache, tryCatch in E.
  rewrite F in E.
  destruct (RetryRev.refresh (clock w) w) as [[d1|e] w1] eqn:R.
  - injection E as -> ->.
    destruct (retryrev_refresh_ok _ _ _ _ R) as (C & _). auto.
  - destruct (retryrev_refresh_counts (clock w) w) as [_ C].
    specialize (C _ _ R). cbn in E. rewrite C in E.
    destruct (data (CACHE w)) as [d0|] eqn:D; [|discriminate].
    injection E as -> ->. right. repeat split; auto.
    intros w2 C2 L.
    apply (@scrape_stale_fetches w2).
    unfold cacheFresh in *. rewrite C2, C, D in *.
    apply Z.ltb_ge in F. apply Z.ltb_ge. lia.
Qed.

(** X20 with an expired cache and the upstream down: the stale catalog is
    returned and the cache is left as it was. *)
Lemma retryrev_refresh_or_stale_witness :
  CACHE (snd (RetryRev.scrapeUsedPaddles (populated 400000 down)))
  = CACHE (populated 400000 down) /\
  data (CACHE (populated 400000 down)) = Some [paddle].
Proof.
  destruct (retryrev_refresh_or_stale (populated 400000 down) _ [paddle]
              eq_refl eq_refl) as [H|(H1 & H2 & _)].
  - vm_compute in H. discriminate H.
  - split; [exact H1 | exact H2].
Defined.

(** X21.  A catalog that a refresh stores, in [server.js] and in
    [part_001], has pairwise distinct normalized names, and each of its
    listings has a name that is not empty and a price text with a dollar
    sign followed by a digit. *)
Theorem refresh_catalog_well_formed (now : Z) (w w' : World)
    (d : list Listing) :
  ServerJs.refresh now w = (Ok d, w') \/ RetryRev.refresh now w = (Ok d, w') ->
  NoDup (map keyOf d) /\
  forall it, In it d -> name it <> [] /\ hasDollarDigit (price it) = true.
Proof.
  intros R.
  assert (E : exists res, d = dedupe (extractItems (body res))).
  { destruct R as [R|R].
    - destruct (serverjs_refresh_ok _ _ _ _ R) as (_ & _ & res & _ & _ & E).
      eauto.
    - destruct (retryrev_refresh_ok _ _ _ _ R) as (_ & res & _ & E). eauto. }
  destruct E as [res ->]. split.
  - rewrite dedupe_keys. apply NoDup_keys_dedupMap.
  - intros it I. apply dedupe_In in I.
    destruct (extractItems_In _ _ I) as (_ & _ & _ & _ & T & D).
    split; auto. now apply truthy_true.
Qed.

(** X21 at an upstream that serves one listing. *)
Lemma refresh_catalog_well_formed_witness :
  NoDup (map keyOf [mkListing (lit "Bantam EXPS") (lit "$129.00")]).
Proof.
  exact (proj1 (refresh_catalog_well_formed 0 (emptyWorld oneListing) _ _
                  (or_introl eq_refl))).
Defined.

(** ** More on the handler *)

Lemma serverjs_bestMatch_In model dataset m :
  ServerJs.bestMatch model dataset = Some m ->
  normalize model <> [] /\ In (listing m) dataset.
Proof.
  unfold ServerJs.bestMatch. intros E.
  destruct (truthy (normalize model)) eqn:T; [|discriminate].
  split; [now apply truthy_true|].
  pose proof (substringPhase_firstLongest (normalize model) dataset) as S.
  destruct (ServerJs.substringPhase (normalize model) dataset) as [[it s]|];
    cbn [firstLongest] in S.
  - injection E as <-. cbn [listing].
    destruct S as (_ & pre & post & C & _).
    assert (I : In it (filter (containsEither (normalize model)) dataset))
      by (rewrite C; apply in_or_app; right; now left).
    now apply filter_In in I.
  - pose proof (serverjs_tokenPhase_best (normalize model) dataset) as B.
    destruct (ServerJs.tokenPhase (normalize model) dataset) as [[it h]|];
      [|discriminate].
    injection E as <-. cbn [listing tokenBest] in *. tauto.
Qed.

Lemma retryrev_bestMatch_In model dataset m :
  RetryRev.bestMatch model dataset = Some m ->
  normalize model <> [] /\ In (listing m) dataset.
Proof.
  unfold RetryRev.bestMatch. intros E.
  destruct (truthy (normalize model)) eqn:T; [|discriminate].
  split; [now apply truthy_true|].
  unfold RetryRev.matchQuery, RetryRev.substringPhase in E.
  set (q := RetryRev.aliasRewrite (normalize model)) in *.
  destruct (find (containsEither q) dataset) as [it|] eqn:F.
  - injection E as <-. cbn [listing]. now apply find_some in F.
  - pose proof (retryrev_tokenPhase_best q dataset) as B.
    destruct (RetryRev.tokenPhase q dataset) as [[it h]|]; [|discriminate].
    injection E as <-. cbn [listing tokenFirstBest] in *.
    destruct B as (_ & _ & pre & post & -> & _).
    apply in_or_app. right. now left.
Qed.

Section HandlerFacts.

Variable scrape : M (list Listing).
Variable matcher : jsstring -> list Listing -> option Match.

Hypothesis scrape_coherent : forall w d w',
  scrape w = (Ok d, w') -> data (CACHE w') = Some d.
Hypothesis matcher_In : forall model dataset m,
  matcher model dataset = Some m ->
  normalize model <> [] /\ In (listing m) dataset.

Lemma offerHandler_offered req w o ref matched echo w' :
  offerHandler scrape matcher req w = (Offered o ref matched echo, w') ->
  exists d it p,
    data (CACHE w') = Some d /\ In it d /\
    name it = matched /\ price it = ref /\
    priceParse ref = Some p /\ o = fixedOffer (mid p) /\
    model req = Some (submittedModel echo) /\
    condition req = Some (echoCondition echo) /\
    echoNotes echo = orEmpty (notes req) /\
    normalize (submittedModel echo) <> [].
Proof.
  unfold offerHandler.
  destruct (model req) as [mo|] eqn:Mo; cbn [present negb orb];
    [|discriminate].
  destruct (condition req) as [co|] eqn:Co;
    [|rewrite orb_true_r; discriminate].
  cbn [present orEmpty].
  destruct (negb (truthy mo) || negb (truthy co)); [discriminate|].
  destruct (scrape w) as [[d|e] w1] eqn:S; [|discriminate].
  destruct (matcher mo d) as [m|] eqn:B; [|discriminate].
  destruct (priceParse (price (listing m))) as [p|] eqn:P; [|discriminate].
  intros [= <- <- <- <- <-]. cbn [submittedModel echoCondition echoNotes].
  destruct (matcher_In _ _ _ B) as [N I].
  exists d, (listing m), p. repeat split; eauto.
Qed.

End HandlerFacts.

(** X23.  A response that carries an offer is backed by the catalog: the
    matched name and the reference price are those of one listing of the
    catalog that the cache holds after the request, the reference price
    parses, the offer is the fixed offer of its midpoint, and the echo
    gives back the submitted model, which is not blank, the condition and
    the notes ([""] when absent). *)
Theorem offer_backed_by_catalog (req : Request) (w w' : World)
    (o : number) (ref matched : jsstring) (echo : Echo) :
  ServerJs.offer req w = (Offered o ref matched echo, w') \/
  RetryRev.offer req w = (Offered o ref matched echo, w') ->
  exists d it p,
    data (CACHE w') = Some d /\ In it d /\
    name it = matched /\ price it = ref /\
    priceParse ref = Some p /\ o = fixedOffer (mid p) /\
    model req = Some (submittedModel echo) /\
    condition req = Some (echoCondition echo) /\
    echoNotes echo = orEmpty (notes req) /\
    normalize (submittedModel echo) <> [].
Proof.
  intros [E|E].
  - apply (offerHandler_offered ServerJs.scrapeUsedPaddles ServerJs.bestMatch)
      with (w := w); auto.
    + intros w0 d w1 S. pose proof (serverjs_scrape_coherent w0) as [_ C].
      rewrite S in C. exact C.
    + apply serverjs_bestMatch_In.
  - apply (offerHandler_offered RetryRev.scrapeUsedPaddles RetryRev.bestMatch)
      with (w := w); auto.
    + intros w0 d w1 S. pose proof (retryrev_scrape_coherent w0) as [_ C].
      rewrite S in C. exact C.
    + apply retryrev_bestMatch_In.
Qed.

(** X23 at the first request after the start, the upstream serving one
    listing. *)
Lemma offer_backed_by_catalog_witness :
  exists d it p,
    data (CACHE (snd (ServerJs.offer perseusRequest
                        (emptyWorld perseusUpstream)))) = Some d /\
    In it d /\ priceParse (price it) = Some p.
Proof.
  assert (E : ServerJs.offer perseusRequest (emptyWorld perseusUpstream)
              = (Offered (parseFloat (lit "100.00")) (lit "$199.99")
                   (lit "Joola Perseus Pro IV")
                   (mkEcho (lit "perseus pro 4") (lit "good") []),
                 snd (ServerJs.offer perseusRequest
                        (emptyWorld perseusUpstream))))
    by (vm_compute; reflexivity).
  destruct (offer_backed_by_catalog _ _ _ _ _ _ _ (or_introl E))
    as (d & it & p & D & I & _ & R & P & _).
  exists d, it, p. rewrite R. auto.
Defined.

Lemma serverjs_scrape_budget w :
  fetches w <= fetches (snd (ServerJs.scrapeUsedPaddles w)) <= S (fetches w) /\
  clock (snd (ServerJs.scrapeUsedPaddles w)) = clock w.
Proof.
  unfold ServerJs.scrapeUsedPaddles, bind, dateNow, getCache, tryCatch.
  destruct (cacheFresh (CACHE w) (clock w)); [cbn; lia|].
  unfold ServerJs.refresh, bind, fetch.
  destruct (upstream w (fetches w)) as [res|msg]; [|cbn; lia].
  destruct (negb (ok res)); cbn; lia.
Qed.

Lemma retryrev_scrape_budget w :
  fetches w <= fetches (snd (RetryRev.scrapeUsedPaddles w)) <= fetches w + 3 /\
  (clock w <= clock (snd (RetryRev.scrapeUsedPaddles w)) <= clock w + 9000)%Z.
Proof.
  unfold RetryRev.scrapeUsedPaddles, bind, dateNow, getCache, tryCatch.
  destruct (cacheFresh (CACHE w) (clock w)); [cbn; lia|].
  unfold RetryRev.refresh, RetryRev.fetchWithRetry, bind.
  destruct (attemptsFrom_bounds 3 3 0 w eq_refl) as (B1 & B2 & _).
  destruct (attemptsFrom_counts 3 3 0 w) as (B0 & _).
  change (waitBudget 0 3) with 9000%Z in B2.
  destruct (RetryRev.attemptsFrom 3 0 3 w) as [[[res|]|e] w2];
    cbn [fst snd] in *.
  - destruct (negb (ok res)); [|rewrite storeCatalog_eq; cbn; lia].
    cbn. destruct (data (CACHE w2)); cbn; lia.
  - cbn. destruct (data (CACHE w2)); cbn; lia.
  - cbn. destruct (data (CACHE w2)); cbn; lia.
Qed.

Lemma scrape_again w d w1 w2 :
  ServerJs.scrapeUsedPaddles w = (Ok d, w1) \/
  RetryRev.scrapeUsedPaddles w = (Ok d, w1) ->
  CACHE w2 = CACHE w1 -> cacheFresh (CACHE w2) (clock w2) = true ->
  ServerJs.scrapeUsedPaddles w2 = (Ok d, w2) /\
  RetryRev.scrapeUsedPaddles w2 = (Ok d, w2).
Proof.
  intros E C2 F.
  assert (D : data (CACHE w1) = Some d).
  { destruct E as [E|E].
    - pose proof (serverjs_scrape_coherent w) as [_ C]. now rewrite E in C.
    - pose proof (retryrev_scrape_coherent w) as [_ C]. now rewrite E in C. }
  rewrite <- C2 in D. apply (@scrape_fresh w2 d D F).
Qed.

Section HandlerWorld.

Variable scrape : M (list Listing).
Variable matcher : jsstring -> list Listing -> option Match.

Lemma offerHandler_world req w :
  snd (offerHandler scrape matcher req w) = w \/
  snd (offerHandler scrape matcher req w) = snd (scrape w).
Proof.
  unfold offerHandler.
  destruct (negb (present (model req)) || negb (present (condition req)));
    [now left|right].
  destruct (scrape w) as [[d|e] w1]; [|reflexivity].
  destruct (matcher (orEmpty (model req)) d) as [m|]; [|reflexivity].
  destruct (priceParse (price (listing m))); reflexivity.
Qed.

Lemma offerHandler_again req w r w' w2 :
  (forall d, scrape w = (Ok d, w') -> scrape w2 = (Ok d, w2)) ->
  r <> Failed ->
  offerHandler scrape matcher req w = (r, w') ->
  offerHandler scrape matcher req w2 = (r, w2).
Proof.
  intros A N. unfold offerHandler.
  destruct (negb (present (model req)) || negb (present (condition req))).
  - intros [= <- <-]. reflexivity.
  - destruct (scrape w) as [[d|e] w1] eqn:S.
    + destruct (matcher (orEmpty (model req)) d) as [m|] eqn:B.
      * destruct (priceParse (price (listing m))) eqn:P;
          intros [= <- <-]; rewrite (A d eq_refl), B, P; reflexivity.
      * intros [= <- <-]. rewrite (A d eq_refl), B. reflexivity.
    + intros [= <- <-]. congruence.
Qed.

Lemma offerHandler_offered_value req w o ref matched echo w' :
  offerHandler scrape matcher req w = (Offered o ref matched echo, w') ->
  exists p, priceParse ref = Some p /\ o = fixedOffer (mid p).
Proof.
  unfold offerHandler.
  destruct (negb (present (model req)) || negb (present (condition req)));
    [discriminate|].
  destruct (scrape w) as [[d|e] w1]; [|discriminate].
  destruct (matcher (orEmpty (model req)) d) as [m|]; [|discriminate].
  destruct (priceParse (price (listing m))) as [p|] eqn:P; [|discriminate].
  intros [= <- <- _ _ _]. eauto.
Qed.

End HandlerWorld.

(** X24.  One request costs the upstream little: in [server.js] the
    handler calls [fetch] once at most and does not wait; in the retry
    revisions it calls [fetch] three times at most and waits 9000 ms at
    most; and with a fresh cache, in every revision, it changes nothing. *)
Theorem offer_upstream_budget (req : Request) (w : World) :
  (fetches w <= fetches (snd (ServerJs.offer req w)) <= S (fetches w) /\
   clock (snd (ServerJs.offer req w)) = clock w) /\
  (fetches w <= fetches (snd (RetryRev.offer req w)) <= fetches w + 3 /\
   (clock w <= clock (snd (RetryRev.offer req w)) <= clock w + 9000)%Z) /\
  (cacheFresh (CACHE w) (clock w) = true ->
   snd (ServerJs.offer req w) = w /\ snd (RetryRev.offer req w) = w).
Proof.
  split; [|split].
  - destruct (offerHandler_world ServerJs.scrapeUsedPaddles ServerJs.bestMatch
                req w) as [E|E]; unfold ServerJs.offer; rewrite E.
    + lia.
    + apply serverjs_scrape_budget.
  - destruct (offerHandler_world RetryRev.scrapeUsedPaddles RetryRev.bestMatch
                req w) as [E|E]; unfold RetryRev.offer; rewrite E.
    + lia.
    + apply retryrev_scrape_budget.
  - intros F.
    assert (D : exists d, data (CACHE w) = Some d).
    { unfold cacheFresh in F. destruct (data (CACHE w)); [eauto|discriminate]. }
    destruct D as [d D]. destruct (@scrape_fresh w d D F) as [S1 S2].
    split.
    + destruct (offerHandler_world ServerJs.scrapeUsedPaddles
                  ServerJs.bestMatch req w) as [E|E];
        unfold ServerJs.offer; rewrite E; [|rewrite S1]; reflexivity.
    + destruct (offerHandler_world RetryRev.scrapeUsedPaddles
                  RetryRev.bestMatch req w) as [E|E];
        unfold RetryRev.offer; rewrite E; [|rewrite S2]; reflexivity.
Qed.

(** X25.  A request that was answered, not failed, gets the same answer
    when it is sent again to a server that holds the cache the first
    request left and finds it fresh, and this second request changes
    nothing: no call of [fetch], no wait, [CACHE] untouched. *)
Theorem offer_repeatable (req : Request) (w w' w2 : World) (r : Response) :
  r <> Failed ->
  CACHE w2 = CACHE w' -> cacheFresh (CACHE w2) (clock w2) = true ->
  (ServerJs.offer req w = (r, w') -> ServerJs.offer req w2 = (r, w2)) /\
  (RetryRev.offer req w = (r, w') -> RetryRev.offer req w2 = (r, w2)).
Proof.
  intros N C2 F. split.
  - intros E. unfold ServerJs.offer in *.
    apply (offerHandler_again ServerJs.scrapeUsedPaddles ServerJs.bestMatch
             req w r w' w2); auto.
    intros d S. apply (scrape_again w d w' w2); auto.
  - intros E. unfold RetryRev.offer in *.
    apply (offerHandler_again RetryRev.scrapeUsedPaddles RetryRev.bestMatch
             req w r w' w2); auto.
    intros d S. apply (scrape_again w d w' w2); auto.
Qed.

(** X25 at the first request after the start and the same request 299999 ms
    later. *)
Lemma offer_repeatable_witness :
  ServerJs.offer perseusRequest
    (mkWorld (mkCache (Some [mkListing (lit "Joola Perseus Pro IV")
                               (lit "$199.99")])
                1700000000000 300000)
       1700000299999 perseusUpstream 1 [EvFetch])
  = (Offered (parseFloat (lit "100.00")) (lit "$199.99")
       (lit "Joola Perseus Pro IV")
       (mkEcho (lit "perseus pro 4") (lit "good") []),
     mkWorld (mkCache (Some [mkListing (lit "Joola Perseus Pro IV")
                               (lit "$199.99")])
                1700000000000 300000)
       1700000299999 perseusUpstream 1 [EvFetch]).
Proof.
  assert (E : ServerJs.offer perseusRequest (emptyWorld perseusUpstream)
              = (Offered (parseFloat (lit "100.00")) (lit "$199.99")
                   (lit "Joola Perseus Pro IV")
                   (mkEcho (lit "perseus pro 4") (lit "good") []),
                 mkWorld (mkCache (Some [mkListing (lit "Joola Perseus Pro IV")
                                           (lit "$199.99")])
                            1700000000000 300000)
                   1700000000000 perseusUpstream 1 [EvFetch]))
    by (vm_compute; reflexivity).
  assert (N : Offered (parseFloat (lit "100.00")) (lit "$199.99")
                (lit "Joola Perseus Pro IV")
                (mkEcho (lit "perseus pro 4") (lit "good") []) <> Failed)
    by discriminate.
  exact (proj1 (offer_repeatable perseusRequest (emptyWorld perseusUpstream)
                  (mkWorld (mkCache (Some [mkListing
                                             (lit "Joola Perseus Pro IV")
                                             (lit "$199.99")])
                              1700000000000 300000)
                     1700000000000 perseusUpstream 1 [EvFetch])
                  (mkWorld (mkCache (Some [mkListing
                                             (lit "Joola Perseus Pro IV")
                                             (lit "$199.99")])
                              1700000000000 300000)
                     1700000299999 perseusUpstream 1 [EvFetch])
                  _ N eq_refl eq_refl) E).
Defined.

(** ** The numbers of a response are never [NaN] and never negative *)

Local Open Scope Z_scope.

Lemma shr_fexp_nonneg m e l :
  0 <= m -> 0 <= shr_m (fst (shr_fexp prec emax m e l)).
Proof.
  intros Hm. destruct (shr_fexp_value m e l Hm) as [-> _].
  now apply Z.shiftr_nonneg.
Qed.

Lemma binary_round_aux_plain mx ex lx :
  0 <= mx -> plain (binary_round_aux prec emax false mx ex lx) = true.
Proof.
  intros Hm. unfold binary_round_aux.
  pose proof (shr_fexp_nonneg mx ex lx Hm) as P1.
  destruct (shr_fexp prec emax mx ex lx) as [mrs1 e1]. cbn [fst] in P1.
  pose proof (round_nearest_even_bounds (shr_m mrs1) (loc_of_shr_record mrs1))
    as B.
  assert (P1' : 0 <= round_nearest_even (shr_m mrs1) (loc_of_shr_record mrs1))
    by lia.
  pose proof (shr_fexp_nonneg _ e1 loc_Exact P1') as P2.
  destruct (shr_fexp prec emax
              (round_nearest_even (shr_m mrs1) (loc_of_shr_record mrs1))
              e1 loc_Exact) as [mrs2 e2].
  cbn [fst] in P2.
  destruct (shr_m mrs2) as [|m2|m2]; try lia; [reflexivity|].
  destruct (e2 <=? emax - prec); reflexivity.
Qed.

Lemma binary_round_plain m e : plain (binary_round prec emax false m e) = true.
Proof.
  unfold binary_round.
  destruct (shl_align m e (fexp prec emax (Z.pos (digits2_pos m) + e)))
    as [mz ez].
  apply binary_round_aux_plain. lia.
Qed.

Lemma numAdd_plain x y :
  plain x = true -> plain y = true -> plain (numAdd x y) = true.
Proof.
  destruct x as [[|]|[|]| |[|] mx ex]; try discriminate;
    destruct y as [[|]|[|]| |[|] my ey]; try discriminate;
    intros _ _; try reflexivity.
  unfold numAdd, SFadd. cbn [cond_Zopp Z.add binary_normalize].
  apply binary_round_plain.
Qed.

Lemma numMul_plain_finite x m e :
  plain x = true -> plain (numMul x (S754_finite false m e)) = true.
Proof.
  destruct x as [[|]|[|]| |[|] mx ex]; try discriminate; intros _;
    try reflexivity.
  unfold numMul, SFmul. cbn [xorb]. apply binary_round_aux_plain. lia.
Qed.

Lemma numDiv_plain_finite x m e :
  plain x = true -> plain (numDiv x (S754_finite false m e)) = true.
Proof.
  destruct x as [[|]|[|]| |[|] mx ex]; try discriminate; intros _;
    try reflexivity.
  unfold numDiv, SFdiv, SFdiv_core_binary. cbn [xorb].
  set (s := ex - e - _).
  set (m' := match s with Z.pos _ => Z.shiftl (Z.pos mx) s | 0 => Z.pos mx
             | Z.neg _ => 0 end).
  assert (Pm : 0 <= m').
  { subst m'. destruct s; try lia. apply Z.shiftl_nonneg. lia. }
  pose proof (div_eucl_fst m' (Z.pos m)) as Q.
  destruct (Z.div_eucl m' (Z.pos m)) as [q r]. cbn [fst] in Q.
  apply binary_round_aux_plain. subst q. apply Z.div_pos; lia.
Qed.

Lemma mathRound_plain x : plain x = true -> plain (mathRound x) = true.
Proof.
  destruct x as [[|]|[|]| |[|] m e]; try discriminate; intros _;
    try reflexivity.
  unfold mathRound. destruct (0 <=? e) eqn:E; [reflexivity|].
  apply Z.leb_gt in E.
  set (n := Z.shiftr _ _).
  assert (Pn : 0 <= n).
  { subst n. apply Z.shiftr_nonneg.
    assert (0 <= Z.shiftl 1 (- e)) by (apply Z.shiftl_nonneg; lia). lia. }
  destruct n as [|p|p]; try lia; [reflexivity|].
  apply binary_round_plain.
Qed.

Lemma literals_finite :
  (exists m e, two = S754_finite false m e) /\
  (exists m e, hundred = S754_finite false m e) /\
  (exists m e, half = S754_finite false m e) /\
  (exists m e, EPSILON = S754_finite false m e).
Proof. repeat split; eexists; eexists; vm_compute; reflexivity. Qed.

Lemma fixedOffer_plain v : plain v = true -> plain (fixedOffer v) = true.
Proof.
  intros P. unfold fixedOffer.
  destruct literals_finite as (_ & (mh & eh & ->) & (m2 & e2 & ->) & EP).
  apply numDiv_plain_finite, mathRound_plain, numMul_plain_finite.
  apply numAdd_plain.
  - now apply numMul_plain_finite.
  - destruct EP as (m & e & ->). reflexivity.
Qed.

Lemma priceParse_plain text p :
  priceParse text = Some p ->
  plain (lo p) = true /\ plain (hi p) = true /\
  numLe (lo p) (hi p) = true /\ plain (mid p) = true.
Proof.
  unfold priceParse.
  pose proof (parseFloat_all_plain (matchAll text)) as A.
  destruct (map parseFloat (matchAll text)) as [|v rest]; [discriminate|].
  intros [= <-]. cbn [lo hi mid].
  destruct (@mathMin_plain v rest A) as (I1 & _ & _).
  destruct (@mathMax_plain v rest A) as (I2 & L2 & _).
  rewrite Forall_forall in A.
  assert (Plo := A _ I1). assert (Phi := A _ I2).
  repeat split; auto.
  destruct literals_finite as ((m & e & ->) & _).
  apply numDiv_plain_finite. now apply numAdd_plain.
Qed.

Local Close Scope Z_scope.

(** X26.  The numbers that [priceParse] returns are never [NaN] and never
    negative: [lo], [hi] and [mid] are each zero, a positive finite number
    or [Infinity], [lo] is at most [hi], and the fixed offer computed from
    [mid] is of that kind as well. *)
Theorem priceParse_numbers_plain (text : jsstring) (p : ParsedPrice) :
  priceParse text = Some p ->
  plain (lo p) = true /\ plain (hi p) = true /\
  numLe (lo p) (hi p) = true /\ plain (mid p) = true /\
  plain (fixedOffer (mid p)) = true.
Proof.
  intros E. destruct (priceParse_plain text p E) as (L & H & O & M).
  repeat split; auto. now apply fixedOffer_plain.
Qed.

(** X26 on a range of two prices. *)
Lemma priceParse_numbers_plain_witness :
  numLe (ofInt 120) (ofInt 150) = true /\
  plain (fixedOffer (ofInt 135)) = true.
Proof.
  assert (E : priceParse (lit "$120.00 - $150.00")
              = Some (mkParsed (ofInt 120) (ofInt 150) (ofInt 135)))
    by (vm_compute; reflexivity).
  destruct (priceParse_numbers_plain (lit "$120.00 - $150.00") _ E)
    as (_ & _ & O & _ & F).
  split; [exact O | exact F].
Defined.

(** X27.  The offer of a response is never [NaN] and never negative, in
    every revision: it is zero, a positive finite number or [Infinity]. *)
Theorem offer_value_plain (req : Request) (w w' : World) (o : number)
    (ref matched : jsstring) (echo : Echo) :
  ServerJs.offer req w = (Offered o ref matched echo, w') \/
  RetryRev.offer req w = (Offered o ref matched echo, w') ->
  plain o = true /\ isNaN o = false.
Proof.
  intros E.
  assert (P : plain o = true).
  { assert (K : exists p, priceParse ref = Some p /\ o = fixedOffer (mid p)).
    { destruct E as [E|E];
        eapply offerHandler_offered_value; exact E. }
    destruct K as (p & P & ->).
    apply fixedOffer_plain. now destruct (priceParse_plain ref p P) as (_ & _ & _ & M). }
  split; auto. destruct o as [[|]|[|]| |[|] m e]; try discriminate; reflexivity.
Qed.

(** X27 at the first request after the start. *)
Lemma offer_value_plain_witness :
  plain (parseFloat (lit "100.00")) = true /\
  isNaN (parseFloat (lit "100.00")) = false.
Proof.
  assert (E : ServerJs.offer perseusRequest (emptyWorld perseusUpstream)
              = (Offered (parseFloat (lit "100.00")) (lit "$199.99")
                   (lit "Joola Perseus Pro IV")
                   (mkEcho (lit "perseus pro 4") (lit "good") []),
                 snd (ServerJs.offer perseusRequest
                        (emptyWorld perseusUpstream))))
    by (vm_compute; reflexivity).
  exact (offer_value_plain _ _ _ _ _ _ _ (or_introl E)).
Defined.

(** ** More on the two regular expressions *)

Lemma matchAt_nondigit c r : isDigit c = false -> matchAt (c :: r) = None.
Proof. intros D. unfold matchAt. cbn [spanDigits]. now rewrite D. Qed.

Lemma scanFrom_nondigits pre s :
  forallb (fun c => negb (isDigit c)) pre = true ->
  scanFrom 0 (pre ++ s) = scanFrom 0 s.
Proof.
  induction pre as [|c r IH]; cbn [forallb app]; auto.
  intros H. apply andb_prop in H as [D H]. apply negb_true_iff in D.
  cbn [scanFrom]. rewrite (matchAt_nondigit c (r ++ s) D). auto.
Qed.

Lemma scanFrom_skip m : forall post,
  scanFrom (length m) (m ++ post) = scanFrom 0 post.
Proof.
  induction m as [|c r IH]; intros post; cbn [length app].
  - reflexivity.
  - cbn [scanFrom]. apply IH.
Qed.

Lemma scanFrom_match m post :
  priceShaped m -> scanFrom 0 (m ++ post) = m :: scanFrom 0 post.
Proof.
  intros S. pose proof (matchAt_complete post S) as C.
  destruct m as [|c r].
  - destruct S as (ds & a & b & E & _). destruct ds; discriminate.
  - cbn [app] in *. cbn [scanFrom]. rewrite C. f_equal.
    replace (length (c :: r) - 1) with (length r) by (cbn [length]; lia).
    apply scanFrom_skip.
Qed.

(** X28.  The global match takes the leftmost price and resumes behind it:
    when no digit comes before a text of the form digits, point, two digits,
    that text is the first match, and the other matches are those of what
    follows it. *)
Theorem matchAll_leftmost (pre m post : jsstring) :
  forallb (fun c => negb (isDigit c)) pre = true -> priceShaped m ->
  matchAll (pre ++ m ++ post) = m :: matchAll post.
Proof.
  intros D S. unfold matchAll.
  rewrite (scanFrom_nondigits pre (m ++ post) D). now apply scanFrom_match.
Qed.

(** X28 on a range of two prices. *)
Lemma matchAll_leftmost_witness :
  matchAll (lit "$" ++ lit "120.00" ++ lit " - $150.00")
  = lit "120.00" :: matchAll (lit " - $150.00").
Proof.
  apply (matchAll_leftmost (lit "$") (lit "120.00") (lit " - $150.00")).
  - reflexivity.
  - exists (lit "120"), "0"%char, "0"%char.
    repeat split; try reflexivity. discriminate.
Defined.

(** X29.  The test [/\$[\d]/] of the extraction holds exactly for the texts
    in which a dollar sign is followed at once by a digit. *)
Theorem hasDollarDigit_iff (s : jsstring) :
  hasDollarDigit s = true <->
  exists pre d post,
    s = pre ++ "$"%char :: d :: post /\ isDigit d = true.
Proof.
  induction s as [|c r IH].
  - split; [discriminate|]. intros (pre & d & post & E & _).
    destruct pre; discriminate.
  - cbn [hasDollarDigit]. destruct r as [|d r'].
    + split; [discriminate|]. intros (pre & d & post & E & _).
      destruct pre as [|? [|? ?]]; discriminate.
    + rewrite orb_true_iff, andb_true_iff, IH. split.
      * intros [[C D]|(pre & x & post & E & D)].
        -- destruct (ascii_dec c "$"); [subst c|discriminate].
           exists [], d, r'. auto.
        -- exists (c :: pre), x, post. rewrite E. auto.
      * intros (pre & x & post & E & D). destruct pre as [|c0 pre].
        -- cbn [app] in E. injection E as -> -> ->. left.
           destruct (ascii_dec "$" "$"); [auto|congruence].
        -- cbn [app] in E. injection E as -> E. right.
           exists pre, x, post. auto.
Qed.

Lemma priceShaped_dot m : priceShaped m -> In "."%char m.
Proof.
  intros (ds & a & b & -> & _). apply in_or_app. right. now left.
Qed.

(** X30.  A price text of whole dollars passes the test of the extraction
    and is not understood by [priceParse]: for a dollar sign followed by
    digits only, [/\$[\d]/] holds and [priceParse] returns none. *)
Theorem whole_dollar_price_unparsed (ds : jsstring) :
  ds <> [] -> forallb isDigit ds = true ->
  hasDollarDigit ("$"%char :: ds) = true /\
  priceParse ("$"%char :: ds) = None.
Proof.
  intros N D.
  assert (P : priceParse ("$"%char :: ds) = None).
  { unfold priceParse.
    assert (M : matchAll ("$"%char :: ds) = []).
    { apply matchAll_nil_iff. intros (pre & m & post & E & S).
      apply priceShaped_dot in S.
      assert (I : In "."%char ("$"%char :: ds))
        by (rewrite E; apply in_or_app; right; apply in_or_app; now left).
      destruct I as [I|I]; [discriminate|].
      rewrite forallb_forall in D. specialize (D _ I). discriminate. }
    now rewrite M. }
  split; auto.
  destruct ds as [|d r]; [congruence|].
  cbn [forallb] in D. apply andb_prop in D as [D _].
  cbn [hasDollarDigit]. rewrite D. reflexivity.
Qed.

(** X30 on the price text "$129". *)
Lemma whole_dollar_price_witness :
  hasDollarDigit (lit "$129") = true /\ priceParse (lit "$129") = None.
Proof.
  destruct (whole_dollar_price_unparsed (lit "129")
              ltac:(discriminate) eq_refl) as (H & P).
  split; [exact H | exact P].
Defined.

(** ** The alias rewrite, revision by revision *)

Lemma serverjs_bestMatch_unrewritten model dataset m :
  ServerJs.bestMatch model dataset = Some m ->
  containsEither (normalize model) (listing m) = true \/
  0 < hitCount (tokens (normalize model)) (listing m).
Proof.
  unfold ServerJs.bestMatch. intros E.
  destruct (truthy (normalize model)); [|discriminate].
  pose proof (substringPhase_firstLongest (normalize model) dataset) as S.
  destruct (ServerJs.substringPhase (normalize model) dataset) as [[it s]|];
    cbn [firstLongest] in S.
  - injection E as <-. cbn [listing]. left.
    destruct S as (_ & pre & post & C & _).
    assert (I : In it (filter (containsEither (normalize model)) dataset))
      by (rewrite C; apply in_or_app; right; now left).
    now apply filter_In in I.
  - pose proof (serverjs_tokenPhase_best (normalize model) dataset) as B.
    destruct (ServerJs.tokenPhase (normalize model) dataset) as [[it h]|];
      [|discriminate].
    injection E as <-. cbn [listing tokenBest] in *. right.
    destruct B as (-> & P & _). exact P.
Qed.

(** C8 as stated fails in [server.js], which has no alias table: for the
    query "ben johns perseus" and a catalog that lists "Peresus Pro IV" its
    [bestMatch] finds nothing, although the canonical term would match; the
    retry revisions rewrite the query and find the listing. *)
Lemma bestMatch_alias_absent_in_serverjs :
  ServerJs.bestMatch (lit "ben johns perseus")
    [mkListing (lit "Peresus Pro IV") (lit "$199.99")] = None /\
  ServerJs.bestMatch (lit "peresus pro iv")
    [mkListing (lit "Peresus Pro IV") (lit "$199.99")]
  = Some (mkMatch (mkListing (lit "Peresus Pro IV") (lit "$199.99"))
            (Score 14)) /\
  RetryRev.bestMatch (lit "ben johns perseus")
    [mkListing (lit "Peresus Pro IV") (lit "$199.99")]
  = Some (mkMatch (mkListing (lit "Peresus Pro IV") (lit "$199.99")) Plain).
Proof. vm_compute. repeat split; reflexivity. Defined.

(** C8, amended.  In the retry revisions the alias loop replaces the
    normalized query by the target of the first key of the table, in table
    order, that the query contains, and leaves it alone when it contains
    none; the substring and token phases run on the rewritten query.
    ["ben johns perseus"] becomes ["peresus pro iv"] whatever the catalog;
    ["joola perseus pro"] takes the target of the fourth key although it
    contains the fifth as well.  [server.js] has no alias table: what its
    [bestMatch] returns matches the normalized query as submitted, by
    containment or by one of its tokens, and for ["ben johns perseus"] it
    returns nothing on every catalog in which no name matches that query
    itself. *)
Theorem bestMatch_alias_first_key_wins :
  (forall q,
     (exists pre alias target post,
        RetryRev.ALIASES = pre ++ (alias, target) :: post /\
        includes q alias = true /\
        (forall e, In e pre -> includes q (fst e) = false) /\
        RetryRev.aliasRewrite q = target) \/
     ((forall e, In e RetryRev.ALIASES -> includes q (fst e) = false) /\
      RetryRev.aliasRewrite q = q)) /\
  (forall model dataset,
     RetryRev.bestMatch model dataset =
     if truthy (normalize model)
     then RetryRev.matchQuery (RetryRev.aliasRewrite (normalize model)) dataset
     else None) /\
  RetryRev.aliasRewrite (normalize (lit "ben johns perseus"))
    = lit "peresus pro iv" /\
  (forall dataset,
     RetryRev.bestMatch (lit "ben johns perseus") dataset
     = RetryRev.matchQuery (lit "peresus pro iv") dataset) /\
  (includes (lit "joola perseus pro") (lit "perseus pro") = true /\
   RetryRev.aliasRewrite (lit "joola perseus pro") = lit "peresus pro iv") /\
  (forall model dataset m,
     ServerJs.bestMatch model dataset = Some m ->
     containsEither (normalize model) (listing m) = true \/
     0 < hitCount (tokens (normalize model)) (listing m)) /\
  (forall dataset,
     (forall it, In it dataset ->
        containsEither (lit "ben johns perseus") it = false /\
        hitCount (tokens (lit "ben johns perseus")) it = 0) ->
     ServerJs.bestMatch (lit "ben johns perseus") dataset = None).
Proof.
  split; [|split; [|split; [|split; [|split; [|split]]]]].
  - intros q. apply aliasLoop_first_match.
  - reflexivity.
  - vm_compute. reflexivity.
  - intros dataset. reflexivity.
  - split; vm_compute; reflexivity.
  - apply serverjs_bestMatch_unrewritten.
  - intros dataset H.
    destruct (ServerJs.bestMatch (lit "ben johns perseus") dataset)
      as [m|] eqn:E; [|reflexivity].
    exfalso.
    destruct (serverjs_bestMatch_In _ _ _ E) as [_ I].
    destruct (H _ I) as [C T].
    destruct (serverjs_bestMatch_unrewritten _ _ _ E) as [K|K].
    + change (normalize (lit "ben johns perseus"))
        with (lit "ben johns perseus") in K. congruence.
    + change (normalize (lit "ben johns perseus"))
        with (lit "ben johns perseus") in K. lia.
Qed.
